(** * HttpClient: retry, timeout, auth-token and interceptor orchestration

    A shallow embedding of [src/http.client.ts].  The class [HttpClient] is a
    record of its private fields; every asynchronous method is a computation
    in a small state-and-exception monad over a [World] that records, in
    program order, the observable actions of the method: the abort
    controllers and timers it creates and clears, the calls it makes to the
    transport ([fetch]) and the lines it writes to the console.

    The collaborators the class consumes as black boxes (the transport, the
    JSON codec) are variables of the section [Client]. *)

From Stdlib Require Import ZArith Lia.
From stdpp Require Import base gmap strings list fin_maps pretty.

Set Warnings "-register-all".

Local Open Scope Z_scope.

(** ** Values of the host language *)

(** [any]-typed request payloads.  Numbers are kept integral: the only use
    the client makes of a payload is its truthiness and its serialisation. *)
Inductive JsValue : Type :=
| JsUndefined
| JsNull
| JsBool (b : bool)
| JsNumber (n : Z)
| JsString (s : string)
| JsArray (items : list JsValue)
| JsObject (fields : list (string * JsValue)).

(** ECMAScript [ToBoolean], as used by [data ? ... : null]. *)
Definition truthy (v : JsValue) : bool :=
  match v with
  | JsUndefined | JsNull => false
  | JsBool b => b
  | JsNumber n => negb (n =? 0)
  | JsString s => negb (String.eqb s EmptyString)
  | JsArray _ | JsObject _ => true
  end.

(** Truthiness of a [string | null] or [string | undefined] slot. *)
Definition truthy_str (o : option string) : bool :=
  match o with
  | Some s => negb (String.eqb s EmptyString)
  | None => false
  end.

(** A default parameter [x = d] replaces only [undefined]. *)
Definition default_param (d v : JsValue) : JsValue :=
  match v with
  | JsUndefined => d
  | _ => v
  end.

(** ** Requests and responses *)

Record File := { file_name : string; file_bytes : list Byte.byte }.

Inductive BodyInit : Type :=
| BodyAbsent                                   (* property not written *)
| BodyNull
| BodyText (s : string)
| BodyFormData (parts : list (string * File)).

(** [RequestInit]: the request descriptor handed to the transport.  A signal
    is named by the controller that owns it. *)
Record RequestInit := {
  ri_method : string;
  ri_headers : gmap string string;
  ri_body : BodyInit;
  ri_credentials : string;
  ri_signal : option nat
}.

Definition set_signal (o : RequestInit) (c : nat) : RequestInit :=
  {| ri_method := ri_method o;
     ri_headers := ri_headers o;
     ri_body := ri_body o;
     ri_credentials := ri_credentials o;
     ri_signal := Some c |}.

(** The four fields the specification calls the descriptor. *)
Definition descriptor (o : RequestInit)
  : string * gmap string string * BodyInit * string :=
  (ri_method o, ri_headers o, ri_body o, ri_credentials o).

(** The transport's [Response]. *)
Record Response := {
  rs_status : Z;
  rs_statusText : string;
  rs_url : string;
  rs_headers : gmap string string;
  rs_body : list Byte.byte
}.

(** [response.ok], which the transport derives from the status: true when
    the status is in the range 200-299. *)
Definition ok (r : Response) : bool :=
  (200 <=? rs_status r) && (rs_status r <=? 299).

(** Modelled from the spec: the class [HttpResponse] of [./http.response],
    imported by the client but not part of the sources; the response wrapper
    "holds decoded body payload, status code, and header mapping". *)
Record HttpResponse := {
  hr_data : JsValue;
  hr_status : Z;
  hr_headers : gmap string string
}.

(** Modelled from the spec: the class [HttpError] of [./http.error],
    imported by the client but not part of the sources; it "holds status
    code, status text, and request URL". *)
Record HttpError := {
  he_status : Z;
  he_statusText : string;
  he_url : string
}.

(** Whatever can be thrown: an error object of the runtime (the transport's
    [TypeError] or [AbortError], the codec's [SyntaxError]) or the client's
    own [HttpError]. *)
Inductive JsError : Type :=
| NativeError (name message : string)
| StatusError (e : HttpError).

(** The optional per-call [config] object: the two properties the client
    reads. *)
Record Config := {
  cfg_headers : option (gmap string string);
  cfg_credentials : option string
}.

Definition empty_config : Config :=
  {| cfg_headers := None; cfg_credentials := None |}.

(** ** The world a method runs in *)

Inductive ConsoleEntry : Type :=
| LogRequest (method url : string) (options : RequestInit)
| LogResponse (status : Z) (url : string) (response : Response)
| WarnRetrying (url : string) (attempt_plus_1 : Z)
| ErrorRequestFailed (method url : string) (error : JsError)
| ErrorUploadFailed (url : string) (error : JsError)
| ErrorDownloadFailed (url : string) (error : JsError).

Inductive Event : Type :=
| EvNewController (c : nat)
| EvSetTimeout (t c : nat) (ms : Z)       (* timer [t] will abort [c] *)
| EvClearTimeout (t : nat)
| EvFetch (url : string) (options : RequestInit)
| EvConsole (entry : ConsoleEntry).

Record World := {
  next_id : nat;            (* supply of controller and timer identities *)
  trace : list Event        (* oldest first *)
}.

Definition initial_world : World := {| next_id := 0; trace := [] |}.

(** How a settled promise looks to its awaiter.  [OutOfFuel] is the model's
    own: a loop that was cut short by its fuel. *)
Inductive Outcome (A : Type) : Type :=
| Return (a : A)
| Throw (e : JsError)
| OutOfFuel.
Arguments Return {A} a.
Arguments Throw {A} e.
Arguments OutOfFuel {A}.

Definition M (A : Type) : Type := World -> Outcome A * World.

Definition ret {A} (a : A) : M A := fun w => (Return a, w).

Definition throw {A} (e : JsError) : M A := fun w => (Throw e, w).

Definition bind {A B} (m : M A) (k : A -> M B) : M B :=
  fun w =>
    match m w with
    | (Return a, w') => k a w'
    | (Throw e, w') => (Throw e, w')
    | (OutOfFuel, w') => (OutOfFuel, w')
    end.

(** [try { m } catch (error) { h error }] *)
Definition try_catch {A} (m : M A) (h : JsError -> M A) : M A :=
  fun w =>
    match m w with
    | (Throw e, w') => h e w'
    | r => r
    end.

Notation "x <- c1 ;; c2" := (bind c1 (fun x => c2))
  (at level 100, c1 at next level, right associativity).
Notation "c1 ;;; c2" := (bind c1 (fun _ => c2))
  (at level 100, right associativity).

Definition emit (e : Event) : M unit :=
  fun w => (Return tt, {| next_id := next_id w; trace := trace w ++ [e] |}).

Definition fresh : M nat :=
  fun w => (Return (next_id w),
            {| next_id := S (next_id w); trace := trace w |}).

(** [new AbortController()] *)
Definition newAbortController : M nat :=
  c <- fresh ;; emit (EvNewController c) ;;; ret c.

(** [setTimeout(() => controller.abort(), ms)] *)
Definition setTimeout (c : nat) (ms : Z) : M nat :=
  t <- fresh ;; emit (EvSetTimeout t c ms) ;;; ret t.

Definition clearTimeout (t : nat) : M unit := emit (EvClearTimeout t).

Definition console (e : ConsoleEntry) : M unit := emit (EvConsole e).

(** ** Reading a trace *)

(** The transport invocations of a trace, oldest first. *)
Fixpoint fetches (tr : list Event) : list (string * RequestInit) :=
  match tr with
  | [] => []
  | EvFetch url o :: tr' => (url, o) :: fetches tr'
  | _ :: tr' => fetches tr'
  end.

Definition fetch_count (tr : list Event) : nat := length (fetches tr).

(** The identities (controllers and timers) a trace creates, in order. *)
Fixpoint created (tr : list Event) : list nat :=
  match tr with
  | [] => []
  | EvNewController c :: tr' => c :: created tr'
  | EvSetTimeout t _ _ :: tr' => t :: created tr'
  | _ :: tr' => created tr'
  end.

(** The timers still armed after a trace, each with the controller it will
    abort, starting from the timers [armed]. *)
Fixpoint armed_after (armed : list (nat * nat)) (tr : list Event)
  : list (nat * nat) :=
  match tr with
  | [] => armed
  | EvSetTimeout t c _ :: tr' => armed_after (armed ++ [(t, c)]) tr'
  | EvClearTimeout t :: tr' =>
      armed_after (filter (fun p => p.1 <> t) armed) tr'
  | _ :: tr' => armed_after armed tr'
  end.

(** The timer discipline of a trace, read from the timers [armed] on: when
    a controller is created no timer is armed, and when the transport is
    called exactly one timer is armed, bound to the controller whose signal
    the call carries. *)
Fixpoint timers_in_order (armed : list (nat * nat)) (tr : list Event)
  : Prop :=
  match tr with
  | [] => True
  | EvNewController _ :: tr' => armed = [] /\ timers_in_order armed tr'
  | EvSetTimeout t c _ :: tr' => timers_in_order (armed ++ [(t, c)]) tr'
  | EvClearTimeout t :: tr' =>
      timers_in_order (filter (fun p => p.1 <> t) armed) tr'
  | EvFetch _ o :: tr' =>
      (exists t c, armed = [(t, c)] /\ ri_signal o = Some c) /\
      timers_in_order armed tr'
  | EvConsole _ :: tr' => timers_in_order armed tr'
  end.

(** The world [w] after [n] more identities and the events [evs]. *)
Definition extend (w : World) (n : nat) (evs : list Event) : World :=
  {| next_id := (n + next_id w)%nat; trace := trace w ++ evs |}.

(** ** The client *)

Definition Interceptor : Type := RequestInit -> RequestInit.
Definition ResponseInterceptor : Type := Response -> Response.

Record HttpClient := {
  baseURL : string;
  timeout : Z;
  retries : Z;
  authToken : option string;
  serviceSecret : option string;
  requestInterceptors : list Interceptor;
  responseInterceptors : list ResponseInterceptor;
  loggingEnabled : bool;
  responseLoggingEnabled : bool
}.

(** [new HttpClient(baseURL, timeout = 5000, retries = 3)] *)
Definition new_HttpClient (baseURL : string) (timeout retries : option Z)
  : HttpClient :=
  {| baseURL := baseURL;
     timeout := default 5000 timeout;
     retries := default 3 retries;
     authToken := None;
     serviceSecret := None;
     requestInterceptors := [];
     responseInterceptors := [];
     loggingEnabled := false;
     responseLoggingEnabled := false |}.

Definition setAuthToken (c : HttpClient) (token : string) : HttpClient :=
  {| baseURL := baseURL c; timeout := timeout c; retries := retries c;
     authToken := Some token;
     serviceSecret := serviceSecret c;
     requestInterceptors := requestInterceptors c;
     responseInterceptors := responseInterceptors c;
     loggingEnabled := loggingEnabled c;
     responseLoggingEnabled := responseLoggingEnabled c |}.

Definition setServiceSecret (c : HttpClient) (secret : string) : HttpClient :=
  {| baseURL := baseURL c; timeout := timeout c; retries := retries c;
     authToken := authToken c;
     serviceSecret := Some secret;
     requestInterceptors := requestInterceptors c;
     responseInterceptors := responseInterceptors c;
     loggingEnabled := loggingEnabled c;
     responseLoggingEnabled := responseLoggingEnabled c |}.

Definition enableLogging (c : HttpClient) : HttpClient :=
  {| baseURL := baseURL c; timeout := timeout c; retries := retries c;
     authToken := authToken c;
     serviceSecret := serviceSecret c;
     requestInterceptors := requestInterceptors c;
     responseInterceptors := responseInterceptors c;
     loggingEnabled := true;
     responseLoggingEnabled := responseLoggingEnabled c |}.

Definition enableResponseLogging (c : HttpClient) : HttpClient :=
  {| baseURL := baseURL c; timeout := timeout c; retries := retries c;
     authToken := authToken c;
     serviceSecret := serviceSecret c;
     requestInterceptors := requestInterceptors c;
     responseInterceptors := responseInterceptors c;
     loggingEnabled := loggingEnabled c;
     responseLoggingEnabled := true |}.

(** [this.requestInterceptors.push(interceptor)] *)
Definition addRequestInterceptor (c : HttpClient) (interceptor : Interceptor)
  : HttpClient :=
  {| baseURL := baseURL c; timeout := timeout c; retries := retries c;
     authToken := authToken c;
     serviceSecret := serviceSecret c;
     requestInterceptors := requestInterceptors c ++ [interceptor];
     responseInterceptors := responseInterceptors c;
     loggingEnabled := loggingEnabled c;
     responseLoggingEnabled := responseLoggingEnabled c |}.

Definition addResponseInterceptor (c : HttpClient)
  (interceptor : ResponseInterceptor) : HttpClient :=
  {| baseURL := baseURL c; timeout := timeout c; retries := retries c;
     authToken := authToken c;
     serviceSecret := serviceSecret c;
     requestInterceptors := requestInterceptors c;
     responseInterceptors := responseInterceptors c ++ [interceptor];
     loggingEnabled := loggingEnabled c;
     responseLoggingEnabled := responseLoggingEnabled c |}.

(** [this.requestInterceptors.reduce((acc, interceptor) => interceptor(acc),
    config)] *)
Definition applyRequestInterceptors (c : HttpClient) (config : RequestInit)
  : RequestInit :=
  fold_left (fun acc interceptor => interceptor acc)
            (requestInterceptors c) config.

(** The pure part of [applyResponseInterceptors]: the [reduce]. *)
Definition reduceResponseInterceptors (c : HttpClient) (response : Response)
  : Response :=
  fold_left (fun acc interceptor => interceptor acc)
            (responseInterceptors c) response.

Definition applyResponseInterceptors (c : HttpClient) (response : Response)
  : M Response :=
  (if responseLoggingEnabled c
   then console (LogResponse (rs_status response) (rs_url response) response)
   else ret tt) ;;;
  ret (reduceResponseInterceptors c response).

Definition logRequest (c : HttpClient) (method url : string)
  (options : RequestInit) : M unit :=
  if loggingEnabled c then console (LogRequest method url options)
  else ret tt.

(** [throw new HttpError(response.status, response.statusText, response.url)] *)
Definition handleError {A} (response : Response) : M A :=
  throw (StatusError {| he_status := rs_status response;
                        he_statusText := rs_statusText response;
                        he_url := rs_url response |}).

(** [if (this.authToken) headers['Authorization'] = ...]: the header is
    written when the token is truthy, over whatever the key held. *)
Definition withAuthorization (c : HttpClient) (headers : gmap string string)
  : gmap string string :=
  match authToken c with
  | Some token =>
      if truthy_str (Some token)
      then <["Authorization" := "Bearer " +:+ token]> headers
      else headers
  | None => headers
  end.

(** [config.credentials || 'same-origin'] *)
Definition credentialsOf (config : Config) : string :=
  match cfg_credentials config with
  | Some cr => if truthy_str (Some cr) then cr else "same-origin"
  | None => "same-origin"
  end.

(** [{ ...config.headers }] *)
Definition spreadHeaders (config : Config) : gmap string string :=
  default ∅ (cfg_headers config).

(** What a loop body tells the loop: the function returned, or control
    reached the end of the body. *)
Inductive Completion (A : Type) : Type :=
| Returned (a : A)
| Normal.
Arguments Returned {A} a.
Arguments Normal {A}.

Inductive FetchResult : Type :=
| Resolved (r : Response)
| Rejected (e : JsError).

(** ** Stand-ins for the collaborators

    Test doubles for the examples at the end of the file. *)

(** A transport that settles its [n]-th call as the script says. *)
Definition scripted (script : list FetchResult) (otherwise : FetchResult)
  : nat -> string -> RequestInit -> FetchResult :=
  fun n _ _ => default otherwise (script !! n).

(** A codec for the payloads of the examples: containers are rendered
    empty and strings are not escaped. *)
Definition toy_stringify (v : JsValue) : string :=
  match v with
  | JsUndefined | JsNull => "null"
  | JsBool true => "true"
  | JsBool false => "false"
  | JsNumber n => pretty n
  | JsString s => "'" +:+ s +:+ "'"
  | JsArray _ => "[]"
  | JsObject _ => "{}"
  end.

Definition toy_json (b : list Byte.byte) : JsError + JsValue :=
  let s := String.string_of_list_byte b in
  if String.eqb s "{}" then inr (JsObject [])
  else if String.eqb s "null" then inr JsNull
  else if String.eqb s "true" then inr (JsBool true)
  else inl (NativeError "SyntaxError" "Unexpected token").

Definition sample_response (status : Z) (statusText body : string)
  : Response :=
  {| rs_status := status;
     rs_statusText := statusText;
     rs_url := "https://api.test/users";
     rs_headers := {[ "content-type" := "application/json" ]};
     rs_body := String.list_byte_of_string body |}.

Definition network_down : JsError :=
  NativeError "TypeError" "Failed to fetch".

Definition aborted : JsError :=
  NativeError "AbortError" "The operation was aborted".

(** A client with the default timeout and three attempts. *)
Definition sample_client : HttpClient :=
  new_HttpClient "https://api.test" None None.

(** A request interceptor that replaces the headers. *)
Definition only_accept_header : Interceptor :=
  fun o =>
    {| ri_method := ri_method o;
       ri_headers := {[ "Accept" := "text/plain" ]};
       ri_body := ri_body o;
       ri_credentials := ri_credentials o;
       ri_signal := ri_signal o |}.

(** A request interceptor that replaces the body. *)
Definition redact_body : Interceptor :=
  fun o =>
    {| ri_method := ri_method o;
       ri_headers := ri_headers o;
       ri_body := BodyText "[redacted]";
       ri_credentials := ri_credentials o;
       ri_signal := ri_signal o |}.

(** A request interceptor that adds a header. *)
Definition add_trace_header : Interceptor :=
  fun o =>
    {| ri_method := ri_method o;
       ri_headers := <["X-Trace" := "1"]> (ri_headers o);
       ri_body := ri_body o;
       ri_credentials := ri_credentials o;
       ri_signal := ri_signal o |}.

(** A request interceptor that asks for credentials to be sent. *)
Definition include_credentials : Interceptor :=
  fun o =>
    {| ri_method := ri_method o;
       ri_headers := ri_headers o;
       ri_body := ri_body o;
       ri_credentials := "include";
       ri_signal := ri_signal o |}.

(** A response interceptor that replaces the body. *)
Definition empty_object_body : ResponseInterceptor :=
  fun r =>
    {| rs_status := rs_status r;
       rs_statusText := rs_statusText r;
       rs_url := rs_url r;
       rs_headers := rs_headers r;
       rs_body := String.list_byte_of_string "{}" |}.

(** A response interceptor that turns every status into 200. *)
Definition force_ok : ResponseInterceptor :=
  fun r =>
    {| rs_status := 200;
       rs_statusText := "OK";
       rs_url := rs_url r;
       rs_headers := rs_headers r;
       rs_body := rs_body r |}.

Definition three_failures : nat -> string -> RequestInit -> FetchResult :=
  scripted [Rejected network_down;
            Resolved (sample_response 503 "Service Unavailable" "busy");
            Rejected aborted]
           (Resolved (sample_response 200 "OK" "{}")).

Definition three_failures_errors (k : nat) : JsError :=
  match k with
  | 0%nat => network_down
  | 1%nat => StatusError {| he_status := 503;
                            he_statusText := "Service Unavailable";
                            he_url := "https://api.test/users" |}
  | _ => aborted
  end.

Definition second_attempt_succeeds
  : nat -> string -> RequestInit -> FetchResult :=
  scripted [Rejected network_down;
            Resolved (sample_response 200 "OK" "{}")]
           (Rejected aborted).


(** A transport that always answers 200 with the JSON text [true]. *)
Definition always_ok : nat -> string -> RequestInit -> FetchResult :=
  scripted [] (Resolved (sample_response 200 "OK" "true")).

Definition client_with_token : HttpClient :=
  setAuthToken sample_client "s3cr3t".

(** A caller that supplies an [Authorization] header of its own. *)
Definition config_with_basic_auth : Config :=
  {| cfg_headers := Some {[ "Authorization" := "Basic dXNlcjpwdw==" ]};
     cfg_credentials := None |}.

Definition client_without_retries : HttpClient :=
  new_HttpClient "https://api.test" None (Some 0).

(** A transport that answers every call with 404. *)
Definition always_not_found : nat -> string -> RequestInit -> FetchResult :=
  scripted [] (Resolved (sample_response 404 "Not Found" "{}")).

(** A transport that answers every call with 200 and a body that is not
    JSON. *)
Definition always_garbled : nat -> string -> RequestInit -> FetchResult :=
  scripted [] (Resolved (sample_response 200 "OK" "<html>")).

(** The sample client with both kinds of logging switched on. *)
Definition verbose_client : HttpClient :=
  enableLogging (enableResponseLogging sample_client).

Section Client.

(** The transport behind [fetch]: how the [n]-th invocation (counted from
    the start of the world) of [fetch(url, options)] settles.  A network
    failure and a timeout abort are both rejections. *)
Variable transport : nat -> string -> RequestInit -> FetchResult.

(** [JSON.stringify] *)
Variable JSON_stringify : JsValue -> string.

(** [response.json()]: the decoded body, or the error it rejects with. *)
Variable json : list Byte.byte -> JsError + JsValue.

(** [await fetch(url, options)] *)
Definition fetch (url : string) (options : RequestInit) : M Response :=
  fun w =>
    let w' := {| next_id := next_id w;
                 trace := trace w ++ [EvFetch url options] |} in
    match transport (fetch_count (trace w)) url options with
    | Resolved r => (Return r, w')
    | Rejected e => (Throw e, w')
    end.

Definition handleResponse (response : Response) : M HttpResponse :=
  match json (rs_body response) with
  | inr data =>
      ret {| hr_data := data;
             hr_status := rs_status response;
             hr_headers := rs_headers response |}
  | inl e => throw e
  end.

(** The [try] block shared by [request] and [upload]. *)
Definition try_block (c : HttpClient) (url : string) (options : RequestInit)
  (timeoutId : nat) : M HttpResponse :=
  response <- fetch url options ;;
  clearTimeout timeoutId ;;;
  response <- applyResponseInterceptors c response ;;
  (if negb (ok response) then handleError response else ret tt) ;;;
  handleResponse response.

(** The [for] loop of [request], from the iteration [attempt] on. *)
Fixpoint request_loop (c : HttpClient) (method url : string) (fuel : nat)
  (attempt : Z) (options : RequestInit) : M (option HttpResponse) :=
  match fuel with
  | O => fun w => (OutOfFuel, w)
  | S fuel' =>
      if attempt <? retries c then
        controller <- newAbortController ;;
        timeoutId <- setTimeout controller (timeout c) ;;
        let options := set_signal options controller in
        completion <-
          try_catch
            (v <- try_block c url options timeoutId ;; ret (Returned v))
            (fun error =>
               clearTimeout timeoutId ;;;
               if attempt <? retries c - 1 then
                 console (WarnRetrying url (attempt + 1)) ;;; ret Normal
               else
                 console (ErrorRequestFailed method url error) ;;;
                 throw error) ;;
        match completion with
        | Returned v => ret (Some v)
        | Normal => request_loop c method url fuel' (attempt + 1) options
        end
      else ret None
  end.

(** The descriptor [request] builds before the interceptors see it. *)
Definition request_options (c : HttpClient) (method : string)
  (data : JsValue) (config : Config) : RequestInit :=
  let headers :=
    spreadHeaders config ∪ {[ "Content-Type" := "application/json" ]} in
  let headers := withAuthorization c headers in
  {| ri_method := method;
     ri_headers := headers;
     ri_body := if truthy data then BodyText (JSON_stringify data)
                else BodyNull;
     ri_credentials := credentialsOf config;
     ri_signal := None |}.

(** [async request(method, endpoint, data = null, config = {})]; the
    result [None] is [undefined]. *)
Definition request (c : HttpClient) (method endpoint : string)
  (data : JsValue) (config : Config) : M (option HttpResponse) :=
  let data := default_param JsNull data in
  let url := baseURL c +:+ endpoint in
  let options := request_options c method data config in
  let options := applyRequestInterceptors c options in
  logRequest c method url options ;;;
  request_loop c method url (S (Z.to_nat (retries c))) 0 options.

Definition upload_options (c : HttpClient) (file : File) (config : Config)
  : RequestInit :=
  let formData := [("file", file)] in
  let headers := spreadHeaders config in
  let headers := withAuthorization c headers in
  {| ri_method := "POST";
     ri_headers := headers;
     ri_body := BodyFormData formData;
     ri_credentials := credentialsOf config;
     ri_signal := None |}.

(** [async upload(endpoint, file, config = {})] *)
Definition upload (c : HttpClient) (endpoint : string) (file : File)
  (config : Config) : M HttpResponse :=
  let url := baseURL c +:+ endpoint in
  let options := upload_options c file config in
  let options := applyRequestInterceptors c options in
  logRequest c "POST" url options ;;;
  controller <- newAbortController ;;
  timeoutId <- setTimeout controller (timeout c) ;;
  let options := set_signal options controller in
  try_catch
    (try_block c url options timeoutId)
    (fun error =>
       clearTimeout timeoutId ;;;
       console (ErrorUploadFailed url error) ;;;
       throw error).

Definition download_options (c : HttpClient) (config : Config)
  : RequestInit :=
  let headers := spreadHeaders config in
  let headers := withAuthorization c headers in
  {| ri_method := "GET";
     ri_headers := headers;
     ri_body := BodyAbsent;
     ri_credentials := credentialsOf config;
     ri_signal := None |}.

(** [async download(endpoint, config = {})]; a [Blob] is its bytes. *)
Definition download (c : HttpClient) (endpoint : string) (config : Config)
  : M (list Byte.byte) :=
  let url := baseURL c +:+ endpoint in
  let options := download_options c config in
  let options := applyRequestInterceptors c options in
  logRequest c "GET" url options ;;;
  controller <- newAbortController ;;
  timeoutId <- setTimeout controller (timeout c) ;;
  let options := set_signal options controller in
  try_catch
    (response <- fetch url options ;;
     clearTimeout timeoutId ;;;
     response <- applyResponseInterceptors c response ;;
     (if negb (ok response) then handleError response else ret tt) ;;;
     ret (rs_body response))
    (fun error =>
       clearTimeout timeoutId ;;;
       console (ErrorDownloadFailed url error) ;;;
       throw error).

Definition get (c : HttpClient) (endpoint : string) (config : Config) :=
  request c "GET" endpoint JsNull config.

Definition post (c : HttpClient) (endpoint : string) (data : JsValue)
  (config : Config) :=
  request c "POST" endpoint data config.

Definition put (c : HttpClient) (endpoint : string) (data : JsValue)
  (config : Config) :=
  request c "PUT" endpoint data config.

Definition delete (c : HttpClient) (endpoint : string) (config : Config) :=
  request c "DELETE" endpoint JsNull config.

(** The five entry points that share the retry loop. *)
Inductive Verb : Type :=
| ViaRequest (method : string) (data : JsValue)
| ViaGet
| ViaPost (data : JsValue)
| ViaPut (data : JsValue)
| ViaDelete.

Definition invoke (c : HttpClient) (v : Verb) (endpoint : string)
  (config : Config) : M (option HttpResponse) :=
  match v with
  | ViaRequest method data => request c method endpoint data config
  | ViaGet => get c endpoint config
  | ViaPost data => post c endpoint data config
  | ViaPut data => put c endpoint data config
  | ViaDelete => delete c endpoint config
  end.

Definition verb_method (v : Verb) : string :=
  match v with
  | ViaRequest method _ => method
  | ViaGet => "GET"
  | ViaPost _ => "POST"
  | ViaPut _ => "PUT"
  | ViaDelete => "DELETE"
  end.

Definition verb_data (v : Verb) : JsValue :=
  match v with
  | ViaRequest _ data | ViaPost data | ViaPut data => data
  | ViaGet | ViaDelete => JsNull
  end.

(** The descriptor the loop of [request] starts from: the output of the
    request-interceptor chain. *)
Definition intercepted_options (c : HttpClient) (v : Verb)
  (config : Config) : RequestInit :=
  applyRequestInterceptors c
    (request_options c (verb_method v)
       (default_param JsNull (verb_data v)) config).

(** *** One attempt, read off the transport *)

(** What the [try] block produces from the way the transport settled. *)
Definition attempt_outcome (c : HttpClient) (fr : FetchResult)
  : Outcome HttpResponse :=
  match fr with
  | Rejected e => Throw e
  | Resolved r =>
      let response := reduceResponseInterceptors c r in
      if ok response then
        match json (rs_body response) with
        | inr data =>
            Return {| hr_data := data;
                      hr_status := rs_status response;
                      hr_headers := rs_headers response |}
        | inl e => Throw e
        end
      else
        Throw (StatusError {| he_status := rs_status response;
                              he_statusText := rs_statusText response;
                              he_url := rs_url response |})
  end.

(** What the [try] block of [download] produces from the way the
    transport settled. *)
Definition download_outcome (c : HttpClient) (fr : FetchResult)
  : Outcome (list Byte.byte) :=
  match fr with
  | Rejected e => Throw e
  | Resolved r =>
      let response := reduceResponseInterceptors c r in
      if ok response then Return (rs_body response)
      else
        Throw (StatusError {| he_status := rs_status response;
                              he_statusText := rs_statusText response;
                              he_url := rs_url response |})
  end.

(** The events of the [try] block after the transport settled. *)
Definition settled_events (c : HttpClient) (timeoutId : nat)
  (fr : FetchResult) : list Event :=
  match fr with
  | Rejected _ => []
  | Resolved r =>
      EvClearTimeout timeoutId ::
      (if responseLoggingEnabled c
       then [EvConsole (LogResponse (rs_status r) (rs_url r) r)] else [])
  end.

(** The events of an attempt up to and including the transport call; the
    controller is [cid], the timer [S cid]. *)
Definition attempt_start (c : HttpClient) (url : string)
  (options : RequestInit) (cid : nat) : list Event :=
  [EvNewController cid;
   EvSetTimeout (S cid) cid (timeout c);
   EvFetch url (set_signal options cid)].

(** The events of the [catch] handler of [request]. *)
Definition catch_events (c : HttpClient) (method url : string)
  (attempt : Z) (timeoutId : nat) (error : JsError) : list Event :=
  [EvClearTimeout timeoutId;
   EvConsole (if attempt <? retries c - 1
              then WarnRetrying url (attempt + 1)
              else ErrorRequestFailed method url error)].

(** All events of the attempt number [attempt] of [request], started in a
    world whose next identity is [cid] and in which the transport has been
    called [n] times. *)
Definition attempt_events (c : HttpClient) (method url : string)
  (attempt : Z) (options : RequestInit) (cid n : nat) : list Event :=
  let fr := transport n url (set_signal options cid) in
  attempt_start c url options cid ++
  settled_events c (S cid) fr ++
  match attempt_outcome c fr with
  | Throw e => catch_events c method url attempt (S cid) e
  | _ => []
  end.

(** The shape of what the loop of [request] adds to the trace: the events
    of one attempt after the other, each attempt taking the next two
    identities. *)
Inductive loop_trace (c : HttpClient) (method url : string)
  (options : RequestInit) : nat -> list Event -> Prop :=
| loop_trace_done cid : loop_trace c method url options cid []
| loop_trace_attempt cid attempt n tail :
    loop_trace c method url options (2 + cid) tail ->
    loop_trace c method url options cid
      (attempt_events c method url attempt options cid n ++ tail).

(** The console lines of a trace that speak of retries and of the final
    failure of [request]. *)
Fixpoint retry_lines (tr : list Event) : list ConsoleEntry :=
  match tr with
  | [] => []
  | EvConsole (WarnRetrying url n) :: tr' =>
      WarnRetrying url n :: retry_lines tr'
  | EvConsole (ErrorRequestFailed method url e) :: tr' =>
      ErrorRequestFailed method url e :: retry_lines tr'
  | _ :: tr' => retry_lines tr'
  end.

(** The timers a trace arms, in order: the timer, the controller it will
    abort, and its delay. *)
Fixpoint timers_set (tr : list Event) : list (nat * nat * Z) :=
  match tr with
  | [] => []
  | EvSetTimeout t c ms :: tr' => (t, c, ms) :: timers_set tr'
  | _ :: tr' => timers_set tr'
  end.

(** The request lines a trace writes to the console. *)
Fixpoint request_log_lines (tr : list Event) : list ConsoleEntry :=
  match tr with
  | [] => []
  | EvConsole (LogRequest method url o) :: tr' =>
      LogRequest method url o :: request_log_lines tr'
  | _ :: tr' => request_log_lines tr'
  end.

(** A trace without its console lines. *)
Fixpoint strip_console (tr : list Event) : list Event :=
  match tr with
  | [] => []
  | EvConsole _ :: tr' => strip_console tr'
  | e :: tr' => e :: strip_console tr'
  end.

(** Two clients that differ at most in their two logging flags. *)
Definition same_but_logging (c1 c2 : HttpClient) : Prop :=
  baseURL c1 = baseURL c2 /\
  timeout c1 = timeout c2 /\
  retries c1 = retries c2 /\
  authToken c1 = authToken c2 /\
  requestInterceptors c1 = requestInterceptors c2 /\
  responseInterceptors c1 = responseInterceptors c2.

(** All events of [upload] or [download]: the log line of the request, the
    one attempt, and the [catch] handler when the attempt raised [thrown];
    [report] is the line the handler writes. *)
Definition single_attempt_events (c : HttpClient) (method url : string)
  (options : RequestInit) (cid : nat) (fr : FetchResult)
  (thrown : option JsError) (report : JsError -> ConsoleEntry)
  : list Event :=
  (if loggingEnabled c
   then [EvConsole (LogRequest method url options)] else []) ++
  attempt_start c url options cid ++
  settled_events c (S cid) fr ++
  match thrown with
  | Some e => [EvClearTimeout (S cid); EvConsole (report e)]
  | None => []
  end.

(** The error of an outcome, if it is one. *)
Definition thrown_error {A} (r : Outcome A) : option JsError :=
  match r with
  | Throw e => Some e
  | _ => None
  end.

(** ** Properties *)

Lemma fetches_app (t1 t2 : list Event) :
  fetches (t1 ++ t2) = fetches t1 ++ fetches t2.
Proof.
  induction t1 as [|e t1 IH]; simpl; [reflexivity|].
  destruct e; simpl; rewrite ?IH; reflexivity.
Qed.

Lemma fetch_count_app (t1 t2 : list Event) :
  fetch_count (t1 ++ t2) = (fetch_count t1 + fetch_count t2)%nat.
Proof. unfold fetch_count. rewrite fetches_app, length_app. reflexivity. Qed.

Lemma extend_extend w n1 n2 e1 e2 :
  extend (extend w n1 e1) n2 e2 = extend w (n2 + n1) (e1 ++ e2).
Proof.
  unfold extend; simpl. f_equal; [lia | symmetry; apply app_assoc].
Qed.

Lemma extend_nil w : extend w 0 [] = w.
Proof. destruct w; unfold extend; simpl. by rewrite app_nil_r. Qed.

(** The [try] block calls the transport once and yields what
    [attempt_outcome] reads off the way that call settled. *)
Lemma try_block_spec c url o t w :
  try_block c url o t w =
    let fr := transport (fetch_count (trace w)) url o in
    (attempt_outcome c fr,
     extend w 0 (EvFetch url o :: settled_events c t fr)).
Proof.
  unfold try_block, bind, fetch, extend; simpl.
  destruct (transport _ url o) as [r|e]; simpl; [|reflexivity].
  unfold applyResponseInterceptors, clearTimeout, console, emit, bind, ret.
  destruct (responseLoggingEnabled c); simpl;
    rewrite <- ?app_assoc; simpl;
    (destruct (ok (reduceResponseInterceptors c r)); simpl;
     [unfold handleResponse;
      destruct (json (rs_body (reduceResponseInterceptors c r)));
      reflexivity
     |reflexivity]).
Qed.

(** One iteration of the loop of [request]. *)
Lemma request_loop_step c method url fuel attempt o w :
  attempt < retries c ->
  request_loop c method url (S fuel) attempt o w =
    let cid := next_id w in
    let n := fetch_count (trace w) in
    let w' := extend w 2 (attempt_events c method url attempt o cid n) in
    match attempt_outcome c (transport n url (set_signal o cid)) with
    | Return v => (Return (Some v), w')
    | Throw e =>
        if attempt <? retries c - 1
        then request_loop c method url fuel (attempt + 1)
               (set_signal o cid) w'
        else (Throw e, w')
    | OutOfFuel => (OutOfFuel, w')
    end.
Proof.
  intros Hlt. apply Z.ltb_lt in Hlt.
  cbn [request_loop]. rewrite Hlt.
  unfold bind, try_catch, newAbortController, setTimeout, fresh, emit, ret.
  cbn -[try_block request_loop attempt_outcome attempt_events fetch_count].
  rewrite try_block_spec.
  cbn -[request_loop attempt_outcome attempt_events fetch_count].
  rewrite !fetch_count_app. cbn [fetch_count fetches length].
  rewrite !Nat.add_0_r.
  unfold attempt_events, attempt_start, catch_events, throw, extend.
  destruct (attempt_outcome c _) as [v|e|];
    [|destruct (attempt <? retries c - 1)|];
    cbn [trace next_id Nat.add]; rewrite <- ?app_assoc;
    cbn [app]; rewrite ?app_nil_r; reflexivity.
Qed.

Lemma request_loop_exit c method url fuel attempt o w :
  retries c <= attempt ->
  request_loop c method url (S fuel) attempt o w = (Return None, w).
Proof.
  intros Hge. cbn [request_loop].
  destruct (Z.ltb_spec attempt (retries c)); [lia | reflexivity].
Qed.

Lemma fetch_count_attempt_events c method url attempt o cid n :
  fetch_count (attempt_events c method url attempt o cid n) = 1%nat.
Proof.
  unfold attempt_events, attempt_start, settled_events, catch_events.
  destruct (transport n url (set_signal o cid)) as [r|e]; cbn;
    [destruct (responseLoggingEnabled c);
     destruct (ok (reduceResponseInterceptors c r)); cbn;
     [destruct (json _)| |destruct (json _)|]; reflexivity
    |reflexivity].
Qed.

Lemma fetch_count_extend w n evs :
  fetch_count (trace (extend w n evs)) =
    (fetch_count (trace w) + fetch_count evs)%nat.
Proof. unfold extend; simpl. apply fetch_count_app. Qed.

Lemma invoke_request c v endpoint config :
  invoke c v endpoint config =
    request c (verb_method v) endpoint (verb_data v) config.
Proof. destruct v; reflexivity. Qed.

(** [request] is its loop, run from attempt 0 on the intercepted
    descriptor, after the request has been logged. *)
Lemma request_unfold c method endpoint data config w :
  request c method endpoint data config w =
    let url := baseURL c +:+ endpoint in
    let o := intercepted_options c (ViaRequest method data) config in
    request_loop c method url (S (Z.to_nat (retries c))) 0 o
      (extend w 0 (if loggingEnabled c
                   then [EvConsole (LogRequest method url o)] else [])).
Proof.
  unfold request, intercepted_options, logRequest, bind; simpl.
  destruct (loggingEnabled c); simpl.
  - reflexivity.
  - by rewrite extend_nil.
Qed.

Lemma fetch_count_request_log c method url o w :
  fetch_count (trace (extend w 0 (if loggingEnabled c
     then [EvConsole (LogRequest method url o)] else []))) =
  fetch_count (trace w).
Proof.
  rewrite fetch_count_extend. destruct (loggingEnabled c); cbn; lia.
Qed.

(** The loop when the next [S j] attempts all raise: it stops after
    exactly those attempts, on the last one, with that attempt's error. *)
Lemma request_loop_all_fail c method url (err : nat -> JsError) :
  forall (j fuel : nat) (attempt : Z) (i : nat) o w,
    retries c - attempt = Z.of_nat (S j) ->
    (j < fuel)%nat ->
    (forall k s, (k <= j)%nat ->
       attempt_outcome c
         (transport (fetch_count (trace w) + k) url (set_signal o s))
       = Throw (err (i + k)%nat)) ->
    exists w',
      request_loop c method url fuel attempt o w
        = (Throw (err (i + j)%nat), w') /\
      fetch_count (trace w') = (fetch_count (trace w) + S j)%nat.
Proof.
  induction j as [|j IH]; intros fuel attempt i o w Hrem Hfuel Hfail;
    (destruct fuel as [|fuel]; [lia|]);
    rewrite request_loop_step by lia; cbn zeta;
    pose proof (Hfail 0%nat (next_id w) ltac:(lia)) as H0;
    rewrite Nat.add_0_r in H0; rewrite H0.
  - destruct (Z.ltb_spec attempt (retries c - 1)); [lia|].
    eexists; split; [rewrite Nat.add_0_r; reflexivity|].
    rewrite fetch_count_extend, fetch_count_attempt_events. reflexivity.
  - destruct (Z.ltb_spec attempt (retries c - 1)); [|lia].
    match goal with
    | |- exists _, request_loop _ _ _ _ _ ?o' ?w1 = _ /\ _ =>
        destruct (IH fuel (attempt + 1) (S i) o' w1)
          as (w' & Hrun & Hcount); [lia | lia | | ]
    end.
    + intros k s Hk. cbn [set_signal ri_method ri_headers ri_body
        ri_credentials].
      rewrite fetch_count_extend, fetch_count_attempt_events.
      specialize (Hfail (S k) s ltac:(lia)).
      replace (fetch_count (trace w) + 1 + k)%nat
        with (fetch_count (trace w) + S k)%nat by lia.
      replace (S i + k)%nat with (i + S k)%nat by lia.
      exact Hfail.
    + exists w'. split.
      * replace (i + S j)%nat with (S i + j)%nat by lia. exact Hrun.
      * rewrite Hcount, fetch_count_extend, fetch_count_attempt_events. lia.
Qed.

Lemma attempt_outcome_settles c fr : attempt_outcome c fr <> OutOfFuel.
Proof.
  destruct fr as [r|e]; cbn; [|discriminate].
  destruct (ok _); [destruct (json _)|]; discriminate.
Qed.

(** The fuel [request] gives its loop is enough: the loop always settles. *)
Lemma request_loop_total c method url :
  forall fuel attempt o w,
    (Z.to_nat (retries c - attempt) < fuel)%nat ->
    (request_loop c method url fuel attempt o w).1 <> OutOfFuel.
Proof.
  induction fuel as [|fuel IH]; intros attempt o w Hfuel; [lia|].
  destruct (Z.ltb_spec attempt (retries c)) as [Hlt|Hge].
  - rewrite request_loop_step by exact Hlt. cbn zeta.
    pose proof (attempt_outcome_settles c
                  (transport (fetch_count (trace w)) url
                     (set_signal o (next_id w)))) as Hsettles.
    destruct (attempt_outcome c _) as [v|e|]; [discriminate| |done].
    destruct (attempt <? retries c - 1); [|discriminate].
    apply IH. lia.
  - rewrite request_loop_exit by exact Hge. discriminate.
Qed.

Lemma invoke_unfold c v endpoint config w :
  invoke c v endpoint config w =
    let url := baseURL c +:+ endpoint in
    let o := intercepted_options c v config in
    request_loop c (verb_method v) url (S (Z.to_nat (retries c))) 0 o
      (extend w 0 (if loggingEnabled c
                   then [EvConsole (LogRequest (verb_method v) url o)]
                   else [])).
Proof. rewrite invoke_request, request_unfold. reflexivity. Qed.

Lemma invoke_total c v endpoint config w :
  (invoke c v endpoint config w).1 <> OutOfFuel.
Proof.
  rewrite invoke_unfold; cbn zeta. apply request_loop_total. lia.
Qed.

(** C1.  For every retry count R >= 1, a call through [request], [get],
    [post], [put] or [delete] whose every attempt raises an error (attempt
    [k] raising [err k]) invokes the transport exactly R times and then
    raises the error of the last attempt, [err (R - 1)]. *)
Theorem request_exhausts_retries c v endpoint config w
  (err : nat -> JsError) :
  1 <= retries c ->
  (forall k s, (k < Z.to_nat (retries c))%nat ->
     attempt_outcome c
       (transport (fetch_count (trace w) + k) (baseURL c +:+ endpoint)
          (set_signal (intercepted_options c v config) s))
     = Throw (err k)) ->
  exists w',
    invoke c v endpoint config w
      = (Throw (err (Z.to_nat (retries c) - 1)%nat), w') /\
    fetch_count (trace w')
      = (fetch_count (trace w) + Z.to_nat (retries c))%nat.
Proof.
  intros HR Hfail. rewrite invoke_unfold; cbn zeta.
  set (w0 := extend w 0 _).
  assert (Hn : fetch_count (trace w0) = fetch_count (trace w))
    by apply fetch_count_request_log.
  destruct (request_loop_all_fail c (verb_method v)
              (baseURL c +:+ endpoint) err
              (Z.to_nat (retries c) - 1) (S (Z.to_nat (retries c))) 0 0%nat
              (intercepted_options c v config) w0)
    as (w' & Hrun & Hcount); [lia | lia | |].
  - intros k s Hk. rewrite Hn. apply Hfail. lia.
  - exists w'. split; [exact Hrun|]. rewrite Hcount, Hn. lia.
Qed.

(** The loop when the next [j] attempts raise and the one after them
    returns: it stops there, after exactly [S j] attempts. *)
Lemma request_loop_succeeds_at c method url (v : HttpResponse) :
  forall (j fuel : nat) (attempt : Z) o w,
    attempt + Z.of_nat j < retries c ->
    (j < fuel)%nat ->
    (forall k s, (k < j)%nat ->
       exists e,
         attempt_outcome c
           (transport (fetch_count (trace w) + k) url (set_signal o s))
         = Throw e) ->
    (forall s,
       attempt_outcome c
         (transport (fetch_count (trace w) + j) url (set_signal o s))
       = Return v) ->
    exists w',
      request_loop c method url fuel attempt o w = (Return (Some v), w') /\
      fetch_count (trace w') = (fetch_count (trace w) + S j)%nat.
Proof.
  induction j as [|j IH]; intros fuel attempt o w Hlt Hfuel Hfail Hok;
    (destruct fuel as [|fuel]; [lia|]);
    rewrite request_loop_step by lia; cbn zeta.
  - specialize (Hok (next_id w)). rewrite Nat.add_0_r in Hok. rewrite Hok.
    eexists; split; [reflexivity|].
    rewrite fetch_count_extend, fetch_count_attempt_events. reflexivity.
  - destruct (Hfail 0%nat (next_id w) ltac:(lia)) as [e He].
    rewrite Nat.add_0_r in He. rewrite He.
    destruct (Z.ltb_spec attempt (retries c - 1)); [|lia].
    match goal with
    | |- exists _, request_loop _ _ _ _ _ ?o' ?w1 = _ /\ _ =>
        destruct (IH fuel (attempt + 1) o' w1)
          as (w' & Hrun & Hcount); [lia | lia | | | ]
    end.
    + intros k s Hk. cbn [set_signal ri_method ri_headers ri_body
        ri_credentials].
      rewrite fetch_count_extend, fetch_count_attempt_events.
      replace (fetch_count (trace w) + 1 + k)%nat
        with (fetch_count (trace w) + S k)%nat by lia.
      apply Hfail. lia.
    + intros s. cbn [set_signal ri_method ri_headers ri_body
        ri_credentials].
      rewrite fetch_count_extend, fetch_count_attempt_events.
      replace (fetch_count (trace w) + 1 + j)%nat
        with (fetch_count (trace w) + S j)%nat by lia.
      apply Hok.
    + exists w'. split; [exact Hrun|].
      rewrite Hcount, fetch_count_extend, fetch_count_attempt_events. lia.
Qed.

(** C2.  For every retry count R and every K with 1 <= K <= R, a call
    whose first K-1 attempts raise an error and whose K-th attempt
    completes with a response that, as handed to classification, has a
    success-range status and a JSON-decodable body, invokes the transport
    exactly K times and returns the decoded body wrapped with that
    response's status and headers. *)
Theorem request_succeeds_on_attempt c v endpoint config w
  (K : nat) (r : Response) (data : JsValue) :
  (1 <= K)%nat ->
  Z.of_nat K <= retries c ->
  (forall k s, (k < K - 1)%nat ->
     exists e,
       attempt_outcome c
         (transport (fetch_count (trace w) + k) (baseURL c +:+ endpoint)
            (set_signal (intercepted_options c v config) s))
       = Throw e) ->
  (forall s,
     transport (fetch_count (trace w) + (K - 1)) (baseURL c +:+ endpoint)
       (set_signal (intercepted_options c v config) s)
     = Resolved r) ->
  ok (reduceResponseInterceptors c r) = true ->
  json (rs_body (reduceResponseInterceptors c r)) = inr data ->
  exists w',
    invoke c v endpoint config w
      = (Return (Some
           {| hr_data := data;
              hr_status := rs_status (reduceResponseInterceptors c r);
              hr_headers := rs_headers (reduceResponseInterceptors c r) |}),
         w') /\
    fetch_count (trace w') = (fetch_count (trace w) + K)%nat.
Proof.
  intros HK HR Hfail Hres Hok Hjson. rewrite invoke_unfold; cbn zeta.
  set (w0 := extend w 0 _).
  assert (Hn : fetch_count (trace w0) = fetch_count (trace w))
    by apply fetch_count_request_log.
  match goal with
  | |- exists _, _ = (Return (Some ?hr), _) /\ _ =>
      destruct (request_loop_succeeds_at c (verb_method v)
                  (baseURL c +:+ endpoint) hr
                  (K - 1) (S (Z.to_nat (retries c))) 0
                  (intercepted_options c v config) w0)
        as (w' & Hrun & Hcount); [lia | lia | | |]
  end.
  - intros k s Hk. rewrite Hn. apply Hfail. lia.
  - intros s. rewrite Hn, Hres. unfold attempt_outcome.
    rewrite Hok, Hjson. reflexivity.
  - exists w'. split; [exact Hrun|]. rewrite Hcount, Hn. lia.
Qed.


Lemma loop_trace_set_signal c method url o s cid evs :
  loop_trace c method url (set_signal o s) cid evs ->
  loop_trace c method url o cid evs.
Proof.
  induction 1 as [cid|cid attempt n tail _ IH]; [constructor|].
  change (attempt_events c method url attempt (set_signal o s) cid n)
    with (attempt_events c method url attempt o cid n).
  by apply loop_trace_attempt.
Qed.

(** What the loop adds to the trace is a sequence of attempts. *)
Lemma request_loop_trace c method url :
  forall fuel attempt o w,
    exists evs,
      trace (request_loop c method url fuel attempt o w).2
        = trace w ++ evs /\
      loop_trace c method url o (next_id w) evs.
Proof.
  induction fuel as [|fuel IH]; intros attempt o w.
  - exists []. split; [cbn; by rewrite app_nil_r | constructor].
  - destruct (Z.ltb_spec attempt (retries c)) as [Hlt|Hge].
    + rewrite request_loop_step by exact Hlt. cbn zeta.
      set (evs := attempt_events c method url attempt o (next_id w)
                    (fetch_count (trace w))).
      assert (Hone : loop_trace c method url o (next_id w) evs).
      { rewrite <- (app_nil_r evs). apply loop_trace_attempt. constructor. }
      destruct (attempt_outcome c _) as [v|e|];
        [exists evs; split; [reflexivity | exact Hone]
        | | exists evs; split; [reflexivity | exact Hone]].
      destruct (attempt <? retries c - 1);
        [|exists evs; split; [reflexivity | exact Hone]].
      destruct (IH (attempt + 1) (set_signal o (next_id w))
                  (extend w 2 evs)) as (tail & Htr & Htail).
      exists (evs ++ tail). split.
      * rewrite Htr. unfold extend; cbn [trace]. by rewrite <- app_assoc.
      * apply loop_trace_attempt.
        exact (loop_trace_set_signal _ _ _ _ _ _ _ Htail).
    + rewrite request_loop_exit by exact Hge.
      exists []. split; [cbn; by rewrite app_nil_r | constructor].
Qed.

Lemma fetches_settled_events c t fr : fetches (settled_events c t fr) = [].
Proof.
  destruct fr; cbn; [destruct (responseLoggingEnabled c)|]; reflexivity.
Qed.

(** [upload] makes one attempt and settles the way that attempt does. *)
Lemma upload_spec c endpoint file config w :
  let url := baseURL c +:+ endpoint in
  let o := applyRequestInterceptors c (upload_options c file config) in
  let fr := transport (fetch_count (trace w)) url
              (set_signal o (next_id w)) in
  exists evs,
    upload c endpoint file config w
      = (attempt_outcome c fr, extend w 2 evs) /\
    fetches evs = [(url, set_signal o (next_id w))].
Proof.
  cbn zeta. unfold upload, logRequest.
  unfold bind, try_catch, newAbortController, setTimeout, fresh, emit, ret,
    console.
  destruct (loggingEnabled c);
    cbn -[try_block attempt_outcome fetch_count];
    rewrite try_block_spec;
    cbn -[attempt_outcome fetch_count settled_events];
    rewrite !fetch_count_app; cbn [fetch_count fetches length];
    rewrite !Nat.add_0_r;
    (destruct (attempt_outcome c _) as [v|e|];
     unfold throw, emit, extend; cbn [trace next_id Nat.add];
     rewrite <- ?app_assoc; cbn [app];
     eexists; (split; [reflexivity|]);
     cbn [fetches]; rewrite ?fetches_app, fetches_settled_events;
     reflexivity).
Qed.

(** [download] makes one attempt and settles the way that attempt does. *)
Lemma download_spec c endpoint config w :
  let url := baseURL c +:+ endpoint in
  let o := applyRequestInterceptors c (download_options c config) in
  let fr := transport (fetch_count (trace w)) url
              (set_signal o (next_id w)) in
  exists evs,
    download c endpoint config w
      = (download_outcome c fr, extend w 2 evs) /\
    fetches evs = [(url, set_signal o (next_id w))].
Proof.
  cbn zeta. unfold download, logRequest, applyResponseInterceptors, fetch.
  unfold bind, try_catch, newAbortController, setTimeout, clearTimeout,
    fresh, console, emit, ret.
  destruct (loggingEnabled c);
    cbn -[fetch_count];
    rewrite !fetch_count_app; cbn [fetch_count fetches length];
    rewrite !Nat.add_0_r;
    (destruct (transport _ _ _) as [r|e];
     [destruct (responseLoggingEnabled c); cbn;
      destruct (ok (reduceResponseInterceptors c r)); cbn|cbn];
     unfold extend; cbn [trace next_id Nat.add];
     rewrite <- ?app_assoc; cbn [app];
     eexists; (split; [reflexivity|]); reflexivity).
Qed.

(** C7.  Whatever the configured retry count, [upload] invokes the
    transport exactly once and settles the way that one attempt does: an
    error of the attempt (a rejection of the transport, among them the
    timeout abort, or the [HttpError] of a status outside the success
    range, or a decode failure) is the error [upload] raises. *)
Theorem upload_never_retries c endpoint file config w :
  let fr := transport (fetch_count (trace w)) (baseURL c +:+ endpoint)
              (set_signal
                 (applyRequestInterceptors c (upload_options c file config))
                 (next_id w)) in
  exists w',
    upload c endpoint file config w = (attempt_outcome c fr, w') /\
    fetch_count (trace w') = S (fetch_count (trace w)) /\
    (forall e, fr = Rejected e ->
       upload c endpoint file config w = (Throw e, w')) /\
    (forall r, fr = Resolved r ->
       ok (reduceResponseInterceptors c r) = false ->
       upload c endpoint file config w
         = (Throw (StatusError
              {| he_status := rs_status (reduceResponseInterceptors c r);
                 he_statusText :=
                   rs_statusText (reduceResponseInterceptors c r);
                 he_url := rs_url (reduceResponseInterceptors c r) |}),
            w')).
Proof.
  destruct (upload_spec c endpoint file config w) as (evs & Hrun & Hf).
  cbn zeta in Hrun, Hf |- *. eexists; split; [exact Hrun|].
  split; [|split].
  - rewrite fetch_count_extend. unfold fetch_count at 2. rewrite Hf.
    cbn. lia.
  - intros e He. rewrite Hrun, He. reflexivity.
  - intros r Hr Hok. rewrite Hrun, Hr. unfold attempt_outcome.
    rewrite Hok. reflexivity.
Qed.

(** A chain of interceptors keeps whatever each of them keeps. *)
Lemma chain_preserves {A B : Type} (proj : A -> B) (fs : list (A -> A)) :
  (forall f a, f ∈ fs -> proj (f a) = proj a) ->
  forall a,
    proj (fold_left (fun acc interceptor => interceptor acc) fs a)
      = proj a.
Proof.
  induction fs as [|f fs IH]; intros Hfs a; [reflexivity|].
  cbn [fold_left]. rewrite IH.
  - apply Hfs. by left.
  - intros g a0 Hg. apply Hfs. by right.
Qed.

(** C8, as amended.  When the response, as it leaves the
    response-interceptor chain, has a success-range status, [download]
    returns the body bytes of that response as they are: no codec is
    involved ([download] does not depend on [json]).  They are the bytes the
    transport delivered whenever no registered response interceptor
    changes the body. *)
Theorem download_returns_raw_bytes c endpoint config w (r : Response) :
  transport (fetch_count (trace w)) (baseURL c +:+ endpoint)
    (set_signal (applyRequestInterceptors c (download_options c config))
       (next_id w)) = Resolved r ->
  ok (reduceResponseInterceptors c r) = true ->
  (exists w',
     download c endpoint config w
       = (Return (rs_body (reduceResponseInterceptors c r)), w')) /\
  ((forall f r0, f ∈ responseInterceptors c ->
      rs_body (f r0) = rs_body r0) ->
   rs_body (reduceResponseInterceptors c r) = rs_body r).
Proof.
  intros Hfr Hok. split.
  - destruct (download_spec c endpoint config w) as (evs & Hrun & _).
    cbn zeta in Hrun. rewrite Hfr in Hrun.
    unfold download_outcome in Hrun. rewrite Hok in Hrun.
    eexists. exact Hrun.
  - intros Hkeep. by apply (chain_preserves rs_body).
Qed.

(** C10.  With a retry count of 0 the loop body never runs: a call through
    any of the five entry points leaves the transport untouched and
    resolves with [undefined], raising nothing. *)
Theorem request_without_retries_is_silent c v endpoint config w :
  retries c = 0 ->
  exists w',
    invoke c v endpoint config w = (Return None, w') /\
    fetches (trace w') = fetches (trace w) /\
    created (trace w') = created (trace w).
Proof.
  intros HR. rewrite invoke_unfold; cbn zeta.
  rewrite request_loop_exit by lia.
  eexists; split; [reflexivity|].
  unfold extend; cbn [trace].
  destruct (loggingEnabled c); cbn.
  - split.
    + rewrite fetches_app. cbn. by rewrite app_nil_r.
    + induction (trace w) as [|[] tr IH]; cbn; rewrite ?IH; reflexivity.
  - by rewrite app_nil_r.
Qed.

(** *** Timers and controllers *)

Lemma armed_after_app armed t1 t2 :
  armed_after armed (t1 ++ t2) = armed_after (armed_after armed t1) t2.
Proof.
  revert armed. induction t1 as [|e t1 IH]; intros armed; [reflexivity|].
  destruct e; cbn; apply IH.
Qed.

Lemma created_app t1 t2 : created (t1 ++ t2) = created t1 ++ created t2.
Proof.
  induction t1 as [|e t1 IH]; [reflexivity|].
  destruct e; cbn; rewrite ?IH; reflexivity.
Qed.

Lemma timers_in_order_app armed t1 t2 :
  timers_in_order armed (t1 ++ t2) <->
  timers_in_order armed t1 /\ timers_in_order (armed_after armed t1) t2.
Proof.
  revert armed. induction t1 as [|e t1 IH]; intros armed.
  - cbn. tauto.
  - destruct e; cbn; rewrite IH; tauto.
Qed.

(** At a transport call inside a disciplined trace, one timer is armed. *)
Lemma timers_in_order_at_fetch armed pre url o post :
  timers_in_order armed (pre ++ EvFetch url o :: post) ->
  exists t cid,
    armed_after armed pre = [(t, cid)] /\ ri_signal o = Some cid.
Proof.
  rewrite timers_in_order_app. cbn. intros (_ & Hfetch & _). exact Hfetch.
Qed.

(** When a controller is created inside a disciplined trace, no timer is
    armed. *)
Lemma timers_in_order_at_controller armed pre cid post :
  timers_in_order armed (pre ++ EvNewController cid :: post) ->
  armed_after armed pre = [].
Proof.
  rewrite timers_in_order_app. cbn. intros (_ & Hnew & _). exact Hnew.
Qed.

Lemma settled_events_timers c cid fr :
  timers_in_order [(S cid, cid)] (settled_events c (S cid) fr) /\
  armed_after [(S cid, cid)] (settled_events c (S cid) fr)
    = match fr with Resolved _ => [] | Rejected _ => [(S cid, cid)] end /\
  created (settled_events c (S cid) fr) = [].
Proof.
  destruct fr as [r|e]; cbn; [|done].
  rewrite decide_False by (intros H; by apply H).
  destruct (responseLoggingEnabled c); cbn; done.
Qed.

(** One attempt of [request] keeps the discipline and leaves no timer
    armed, on the success path and on the failure path alike. *)
Lemma attempt_events_timers c method url attempt o cid n :
  timers_in_order [] (attempt_events c method url attempt o cid n) /\
  armed_after [] (attempt_events c method url attempt o cid n) = [] /\
  created (attempt_events c method url attempt o cid n) = [cid; S cid].
Proof.
  unfold attempt_events, attempt_start.
  destruct (settled_events_timers c cid
              (transport n url (set_signal o cid))) as (Hord & Harmed & Hcr).
  rewrite !timers_in_order_app, !armed_after_app, !created_app, Hcr.
  cbn [app armed_after timers_in_order created].
  rewrite Harmed.
  destruct (transport n url (set_signal o cid)) as [r|e];
    cbn [attempt_outcome].
  - destruct (ok (reduceResponseInterceptors c r));
      [destruct (json _)|]; cbn; eauto 10.
  - cbn. rewrite decide_False by (intros H; by apply H). cbn. eauto 10.
Qed.

Lemma loop_trace_timers c method url o cid evs :
  loop_trace c method url o cid evs ->
  timers_in_order [] evs /\
  armed_after [] evs = [] /\
  created evs = seq cid (2 * fetch_count evs).
Proof.
  induction 1 as [cid|cid attempt n tail _ (IHord & IHarmed & IHcr)].
  - cbn. done.
  - destruct (attempt_events_timers c method url attempt o cid n)
      as (Hord & Harmed & Hcr).
    rewrite timers_in_order_app, armed_after_app, created_app,
      fetch_count_app, fetch_count_attempt_events, Harmed, Hcr, IHcr.
    refine (conj (conj Hord IHord) (conj IHarmed _)).
    replace (2 * (1 + fetch_count tail))%nat
      with (2 + 2 * fetch_count tail)%nat by lia.
    reflexivity.
Qed.

(** *** What a call adds to the trace *)

Lemma fetches_attempt_events c method url attempt o cid n :
  fetches (attempt_events c method url attempt o cid n)
    = [(url, set_signal o cid)].
Proof.
  unfold attempt_events, attempt_start. cbn [app fetches].
  rewrite fetches_app, fetches_settled_events. cbn [app].
  destruct (attempt_outcome c _); reflexivity.
Qed.

Lemma loop_trace_fetches c method url o cid evs :
  loop_trace c method url o cid evs ->
  forall u o', (u, o') ∈ fetches evs ->
    u = url /\ exists s, o' = set_signal o s.
Proof.
  induction 1 as [cid|cid attempt n tail _ IH]; intros u o' Hin.
  - cbn in Hin. by apply elem_of_nil in Hin.
  - rewrite fetches_app, fetches_attempt_events in Hin.
    apply elem_of_app in Hin as [Hin|Hin]; [|by apply IH].
    apply list_elem_of_singleton in Hin. injection Hin as -> ->.
    eauto.
Qed.

(** The events of a call through one of the five entry points: the log
    line of the request, when logging is enabled, then the attempts. *)
Lemma invoke_trace c v endpoint config w :
  let url := baseURL c +:+ endpoint in
  let o := intercepted_options c v config in
  exists evs,
    trace (invoke c v endpoint config w).2
      = trace w ++
        (if loggingEnabled c
         then [EvConsole (LogRequest (verb_method v) url o)] else []) ++
        evs /\
    loop_trace c (verb_method v) url o (next_id w) evs.
Proof.
  cbn zeta. rewrite invoke_unfold; cbn zeta.
  match goal with
  | |- context [request_loop _ ?m ?u ?f ?a ?o ?w0] =>
      destruct (request_loop_trace c m u f a o w0) as (evs & Htr & Hshape)
  end.
  exists evs. split.
  - rewrite Htr. unfold extend; cbn [trace]. by rewrite <- app_assoc.
  - exact Hshape.
Qed.

Lemma invoke_fetches c v endpoint config w :
  exists evs,
    trace (invoke c v endpoint config w).2 = trace w ++ evs /\
    forall u o', (u, o') ∈ fetches evs ->
      u = baseURL c +:+ endpoint /\
      exists s, o' = set_signal (intercepted_options c v config) s.
Proof.
  destruct (invoke_trace c v endpoint config w) as (evs & Htr & Hshape).
  cbn zeta in Htr, Hshape.
  eexists; split; [exact Htr|].
  intros u o' Hin. rewrite fetches_app in Hin.
  apply elem_of_app in Hin as [Hin|Hin].
  - destruct (loggingEnabled c); cbn in Hin; by apply elem_of_nil in Hin.
  - exact (loop_trace_fetches _ _ _ _ _ _ Hshape u o' Hin).
Qed.

(** *** Interceptors *)

Lemma two_request_interceptors c0 f g d :
  requestInterceptors c0 = [] ->
  applyRequestInterceptors
    (addRequestInterceptor (addRequestInterceptor c0 f) g) d = g (f d).
Proof.
  intros Hnone. unfold applyRequestInterceptors; cbn. rewrite Hnone.
  reflexivity.
Qed.

Lemma two_response_interceptors c0 f g r :
  responseInterceptors c0 = [] ->
  reduceResponseInterceptors
    (addResponseInterceptor (addResponseInterceptor c0 f) g) r = g (f r).
Proof.
  intros Hnone. unfold reduceResponseInterceptors; cbn. rewrite Hnone.
  reflexivity.
Qed.

(** C5.  Both chains compose in registration order.  After registering
    [f] and then [g] on a client without request interceptors, the chain
    maps a descriptor [d] to [g (f d)], and every descriptor a call hands
    to the transport is [g (f d)] for the descriptor [d] the call built,
    with the signal of the attempt attached.  After registering [f] and
    then [g] on a client without response interceptors, a response [r]
    delivered by the transport is classified and decoded as [g (f r)]. *)
Theorem interceptor_chains_compose c0 (f g : Interceptor)
  (f' g' : ResponseInterceptor) :
  requestInterceptors c0 = [] ->
  responseInterceptors c0 = [] ->
  let c := addRequestInterceptor (addRequestInterceptor c0 f) g in
  let c' := addResponseInterceptor (addResponseInterceptor c0 f') g' in
  (forall d, applyRequestInterceptors c d = g (f d)) /\
  (forall v endpoint config w,
     exists evs,
       trace (invoke c v endpoint config w).2 = trace w ++ evs /\
       forall u o', (u, o') ∈ fetches evs ->
         let d := request_options c (verb_method v)
                    (default_param JsNull (verb_data v)) config in
         descriptor o' = descriptor (g (f d)) /\
         exists s, o' = set_signal (g (f d)) s) /\
  (forall r w,
     applyResponseInterceptors c' r w
       = (Return (g' (f' r)),
          extend w 0
            (if responseLoggingEnabled c'
             then [EvConsole (LogResponse (rs_status r) (rs_url r) r)]
             else []))) /\
  (forall r url o timeoutId w,
     transport (fetch_count (trace w)) url o = Resolved r ->
     try_block c' url o timeoutId w
       = ((if negb (ok (g' (f' r))) then handleError (g' (f' r))
           else ret tt) ;;;
          handleResponse (g' (f' r)))
           (extend w 0
              (EvFetch url o :: settled_events c' timeoutId (Resolved r)))).
Proof.
  intros Hreq Hresp c c'.
  assert (Hchain : forall d, applyRequestInterceptors c d = g (f d))
    by (intros d; by apply two_request_interceptors).
  assert (Hchain' : forall r, reduceResponseInterceptors c' r = g' (f' r))
    by (intros r; by apply two_response_interceptors).
  split; [exact Hchain|]. split; [|split].
  - intros v endpoint config w.
    destruct (invoke_fetches c v endpoint config w) as (evs & Htr & Hf).
    exists evs. split; [exact Htr|].
    intros u o' Hin. destruct (Hf u o' Hin) as (_ & s & ->).
    unfold intercepted_options. rewrite Hchain. cbn zeta.
    split; [reflexivity | by exists s].
  - intros r w. unfold applyResponseInterceptors, bind, console, emit, ret.
    rewrite Hchain'.
    destruct (responseLoggingEnabled c'); unfold extend; cbn;
      [reflexivity|]. destruct w; cbn. by rewrite app_nil_r.
  - intros r url o timeoutId w Hfr.
    rewrite try_block_spec; cbn zeta. rewrite Hfr.
    unfold attempt_outcome, bind, handleError, handleResponse, throw, ret.
    rewrite Hchain'.
    destruct (ok (g' (f' r))); cbn; [destruct (json _)|]; reflexivity.
Qed.

(** *** Headers and body of the descriptor *)

Lemma withAuthorization_lookup c token headers :
  authToken c = Some token ->
  token <> EmptyString ->
  withAuthorization c headers !! "Authorization"
    = Some ("Bearer " +:+ token).
Proof.
  intros Htok Hne. unfold withAuthorization, truthy_str. rewrite Htok.
  apply String.eqb_neq in Hne. rewrite Hne. cbn.
  apply lookup_insert_eq.
Qed.

(** C4, as amended.  When a non-empty auth token is set, the descriptor
    that each verb builds and hands to the request-interceptor chain
    carries [Authorization: Bearer <token>], whatever headers the caller
    supplied.  The descriptor handed to the transport is the output of
    the chain: it carries the header whenever every registered request
    interceptor leaves the [Authorization] header as it is. *)
Theorem authorization_header_is_written_last c token :
  authToken c = Some token ->
  token <> EmptyString ->
  let bearer := Some ("Bearer " +:+ token) in
  (forall method data config,
     ri_headers (request_options c method data config) !! "Authorization"
       = bearer) /\
  (forall file config,
     ri_headers (upload_options c file config) !! "Authorization"
       = bearer) /\
  (forall config,
     ri_headers (download_options c config) !! "Authorization" = bearer) /\
  ((forall f o, f ∈ requestInterceptors c ->
      ri_headers (f o) !! "Authorization"
        = ri_headers o !! "Authorization") ->
   (forall v endpoint config w,
      exists evs,
        trace (invoke c v endpoint config w).2 = trace w ++ evs /\
        forall u o', (u, o') ∈ fetches evs ->
          ri_headers o' !! "Authorization" = bearer) /\
   (forall endpoint file config w,
      exists evs,
        trace (upload c endpoint file config w).2 = trace w ++ evs /\
        forall u o', (u, o') ∈ fetches evs ->
          ri_headers o' !! "Authorization" = bearer) /\
   (forall endpoint config w,
      exists evs,
        trace (download c endpoint config w).2 = trace w ++ evs /\
        forall u o', (u, o') ∈ fetches evs ->
          ri_headers o' !! "Authorization" = bearer)).
Proof.
  intros Htok Hne bearer.
  assert (Hreq : forall method data config,
    ri_headers (request_options c method data config) !! "Authorization"
      = bearer)
    by (intros; cbn; by apply withAuthorization_lookup).
  assert (Hup : forall file config,
    ri_headers (upload_options c file config) !! "Authorization" = bearer)
    by (intros; cbn; by apply withAuthorization_lookup).
  assert (Hdown : forall config,
    ri_headers (download_options c config) !! "Authorization" = bearer)
    by (intros; cbn; by apply withAuthorization_lookup).
  split; [exact Hreq|]. split; [exact Hup|]. split; [exact Hdown|].
  intros Hkeep.
  assert (Hchain : forall d,
    ri_headers (applyRequestInterceptors c d) !! "Authorization"
      = ri_headers d !! "Authorization").
  { intros d. unfold applyRequestInterceptors.
    by apply (chain_preserves
                (fun o => ri_headers o !! "Authorization")). }
  split; [|split].
  - intros v endpoint config w.
    destruct (invoke_fetches c v endpoint config w) as (evs & Htr & Hf).
    exists evs. split; [exact Htr|].
    intros u o' Hin. destruct (Hf u o' Hin) as (_ & s & ->).
    cbn [set_signal ri_headers]. unfold intercepted_options.
    rewrite Hchain. apply Hreq.
  - intros endpoint file config w.
    destruct (upload_spec c endpoint file config w) as (evs & Hrun & Hf).
    cbn zeta in Hrun, Hf. exists evs. rewrite Hrun. split; [reflexivity|].
    intros u o' Hin. rewrite Hf in Hin.
    apply list_elem_of_singleton in Hin. injection Hin as -> ->.
    cbn [set_signal ri_headers]. rewrite Hchain. apply Hup.
  - intros endpoint config w.
    destruct (download_spec c endpoint config w) as (evs & Hrun & Hf).
    cbn zeta in Hrun, Hf. exists evs. rewrite Hrun. split; [reflexivity|].
    intros u o' Hin. rewrite Hf in Hin.
    apply list_elem_of_singleton in Hin. injection Hin as -> ->.
    cbn [set_signal ri_headers]. rewrite Hchain. apply Hdown.
Qed.

(** C6, as amended.  For a truthy body value the descriptor that
    [request] (and so [post] and [put]) builds and hands to the
    request-interceptor chain has the JSON serialisation of that value as
    its body, and for no body ([null] or [undefined]) it has the body
    [null].  The descriptor handed to the transport is the output of the
    chain: its body is that body whenever every registered request
    interceptor leaves the body as it is. *)
Theorem request_body_is_serialised c v config :
  let data := verb_data v in
  let built := request_options c (verb_method v)
                 (default_param JsNull data) config in
  (truthy data = true -> ri_body built = BodyText (JSON_stringify data)) /\
  (data = JsNull \/ data = JsUndefined -> ri_body built = BodyNull) /\
  ((forall f o, f ∈ requestInterceptors c -> ri_body (f o) = ri_body o) ->
   forall endpoint w,
     exists evs,
       trace (invoke c v endpoint config w).2 = trace w ++ evs /\
       forall u o', (u, o') ∈ fetches evs -> ri_body o' = ri_body built).
Proof.
  cbn zeta. split; [|split].
  - intros Htruthy. cbn [request_options ri_body].
    destruct (verb_data v); cbn in Htruthy |- *; try discriminate;
      rewrite ?Htruthy; reflexivity.
  - intros [->| ->]; reflexivity.
  - intros Hkeep endpoint w.
    destruct (invoke_fetches c v endpoint config w) as (evs & Htr & Hf).
    exists evs. split; [exact Htr|].
    intros u o' Hin. destruct (Hf u o' Hin) as (_ & s & ->).
    cbn [set_signal ri_body]. unfold intercepted_options.
    unfold applyRequestInterceptors.
    by apply (chain_preserves ri_body).
Qed.

(** ** Further properties of the client *)

(** X1.  Registering an interceptor appends it to its chain: the chain of
    the new client is the old chain followed by the new interceptor, for
    chains of any length; the other chain is not touched; and a client
    without interceptors hands descriptors and responses on as they are. *)
Theorem registration_appends_to_the_chain c (h : Interceptor)
  (h' : ResponseInterceptor) :
  (forall d,
     applyRequestInterceptors (addRequestInterceptor c h) d
       = h (applyRequestInterceptors c d)) /\
  (forall r,
     reduceResponseInterceptors (addResponseInterceptor c h') r
       = h' (reduceResponseInterceptors c r)) /\
  (forall r,
     reduceResponseInterceptors (addRequestInterceptor c h) r
       = reduceResponseInterceptors c r) /\
  (forall d,
     applyRequestInterceptors (addResponseInterceptor c h') d
       = applyRequestInterceptors c d) /\
  (forall b t n d r,
     applyRequestInterceptors (new_HttpClient b t n) d = d /\
     reduceResponseInterceptors (new_HttpClient b t n) r = r).
Proof.
  unfold applyRequestInterceptors, reduceResponseInterceptors; cbn.
  repeat split; intros; try reflexivity; by rewrite fold_left_app.
Qed.

Lemma withAuthorization_other c (headers : gmap string string) k :
  k <> "Authorization" ->
  withAuthorization c headers !! k = headers !! k.
Proof.
  intros Hk. unfold withAuthorization.
  destruct (authToken c) as [token|]; [|reflexivity].
  destruct (truthy_str (Some token)); [|reflexivity].
  by rewrite lookup_insert_ne.
Qed.

Lemma withAuthorization_authorization c (headers : gmap string string) :
  withAuthorization c headers !! "Authorization"
    = if truthy_str (authToken c)
      then (fun token => "Bearer " +:+ token) <$> authToken c
      else headers !! "Authorization".
Proof.
  unfold withAuthorization.
  destruct (authToken c) as [token|]; [|reflexivity].
  destruct (truthy_str (Some token)); [|reflexivity].
  apply lookup_insert_eq.
Qed.

(** X2.  The headers of the descriptor each verb builds, key by key.
    [Authorization] is the bearer token when a non-empty token is set and
    the caller's value otherwise.  Every other key has the caller's value;
    [request] alone falls back to [Content-Type: application/json] when the
    caller gives no [Content-Type], while [upload] and [download] add no
    header of their own. *)
Theorem headers_are_merged_in_order c method data file config (k : string) :
  let caller := spreadHeaders config in
  let bearer := (fun token => "Bearer " +:+ token) <$> authToken c in
  let written :=
    truthy_str (authToken c) && bool_decide (k = "Authorization") in
  ri_headers (request_options c method data config) !! k
    = (if written then bearer
       else match caller !! k with
            | Some v => Some v
            | None => if bool_decide (k = "Content-Type")
                      then Some "application/json" else None
            end) /\
  ri_headers (upload_options c file config) !! k
    = (if written then bearer else caller !! k) /\
  ri_headers (download_options c config) !! k
    = (if written then bearer else caller !! k).
Proof.
  cbn zeta. cbn [request_options upload_options download_options ri_headers].
  destruct (decide (k = "Authorization")) as [->|Hk].
  - rewrite !withAuthorization_authorization.
    rewrite bool_decide_eq_true_2 by reflexivity. rewrite andb_true_r.
    destruct (truthy_str (authToken c)); [done|].
    rewrite lookup_union, lookup_singleton_ne by done.
    destruct (spreadHeaders config !! "Authorization"); done.
  - rewrite !withAuthorization_other by exact Hk.
    rewrite (bool_decide_eq_false_2 _ Hk), andb_false_r.
    split; [|done].
    rewrite lookup_union.
    destruct (decide (k = "Content-Type")) as [->|Hct].
    + rewrite lookup_singleton_eq, bool_decide_eq_true_2 by reflexivity.
      destruct (spreadHeaders config !! "Content-Type"); done.
    + rewrite lookup_singleton_ne, (bool_decide_eq_false_2 _ Hct) by done.
      destruct (spreadHeaders config !! k); done.
Qed.

Lemma loop_trace_fetch_list c method url o cid evs :
  loop_trace c method url o cid evs ->
  fetches evs
    = map (fun k => (url, set_signal o (cid + 2 * k)%nat))
        (seq 0 (fetch_count evs)).
Proof.
  induction 1 as [cid|cid attempt n tail _ IH]; [reflexivity|].
  rewrite fetch_count_app, fetch_count_attempt_events.
  rewrite fetches_app, fetches_attempt_events, IH.
  cbn [app Nat.add seq map]. rewrite Nat.mul_0_r, Nat.add_0_r. f_equal.
  rewrite <- seq_shift, map_map.
  apply map_ext. intros k. do 2 f_equal. lia.
Qed.

(** X3.  The transport calls of one call through the retry loop, in order:
    every attempt goes to the same URL, the base URL followed by the
    endpoint as given, with the same descriptor, the one the interceptor
    chain produced once before the loop; only the signal differs, attempt
    [k] carrying the signal of the controller created for it. *)
Theorem every_attempt_sends_the_same_request c v endpoint config w :
  exists evs,
    trace (invoke c v endpoint config w).2 = trace w ++ evs /\
    fetches evs
      = map (fun k =>
               (baseURL c +:+ endpoint,
                set_signal (intercepted_options c v config)
                  (next_id w + 2 * k)%nat))
          (seq 0 (fetch_count evs)).
Proof.
  destruct (invoke_trace c v endpoint config w) as (evs & Htr & Hshape).
  cbn zeta in Htr, Hshape.
  eexists; split; [exact Htr|].
  rewrite fetches_app, fetch_count_app.
  rewrite (loop_trace_fetch_list _ _ _ _ _ _ Hshape).
  destruct (loggingEnabled c); reflexivity.
Qed.

(** The attempts the loop makes from the iteration [attempt] on, whatever
    the transport does. *)
Lemma request_loop_budget c method url :
  forall fuel attempt o w,
    (Z.to_nat (retries c - attempt) < fuel)%nat ->
    exists k,
      fetch_count (trace (request_loop c method url fuel attempt o w).2)
        = (fetch_count (trace w) + k)%nat /\
      (k <= Z.to_nat (retries c - attempt))%nat /\
      match (request_loop c method url fuel attempt o w).1 with
      | Return None => retries c <= attempt /\ k = 0%nat
      | Return (Some _) => (1 <= k)%nat
      | Throw _ => attempt < retries c /\
                   k = Z.to_nat (retries c - attempt)
      | OutOfFuel => False
      end.
Proof.
  induction fuel as [|fuel IH]; intros attempt o w Hfuel; [lia|].
  destruct (Z.ltb_spec attempt (retries c)) as [Hlt|Hge].
  - rewrite request_loop_step by exact Hlt. cbn zeta.
    pose proof (attempt_outcome_settles c
                  (transport (fetch_count (trace w)) url
                     (set_signal o (next_id w)))) as Hsettles.
    destruct (attempt_outcome c _) as [v|e|]; [| |done].
    + exists 1%nat. cbn [fst snd].
      rewrite fetch_count_extend, fetch_count_attempt_events.
      repeat split; lia.
    + destruct (Z.ltb_spec attempt (retries c - 1)) as [Hmore|Hlast].
      * match goal with
        | |- context [request_loop _ _ _ _ ?a' ?o' ?w1] =>
            destruct (IH a' o' w1) as (k & Hcount & Hle & Hres); [lia|]
        end.
        exists (S k). rewrite Hcount.
        rewrite fetch_count_extend, fetch_count_attempt_events.
        split; [lia|]. split; [lia|].
        destruct (request_loop _ _ _ _ _ _ _).1 as [[v|]|e'|];
          [lia | lia | lia | exact Hres].
      * exists 1%nat. cbn [fst snd].
        rewrite fetch_count_extend, fetch_count_attempt_events.
        repeat split; lia.
  - rewrite request_loop_exit by exact Hge.
    exists 0%nat. cbn [fst snd]. repeat split; lia.
Qed.

(** X4.  The attempt budget, for every transport.  A call through the retry
    loop never invokes the transport more than [retries] times (not at all
    for a count of zero or less); it raises only after it has used the
    whole budget; it resolves with [undefined] exactly when the retry count
    is zero or negative; and a response is returned only after at least one
    attempt. *)
Theorem attempts_stay_within_the_budget c v endpoint config w :
  exists k,
    fetch_count (trace (invoke c v endpoint config w).2)
      = (fetch_count (trace w) + k)%nat /\
    (k <= Z.to_nat (retries c))%nat /\
    match (invoke c v endpoint config w).1 with
    | Return None => retries c <= 0 /\ k = 0%nat
    | Return (Some _) => (1 <= k)%nat
    | Throw _ => 1 <= retries c /\ k = Z.to_nat (retries c)
    | OutOfFuel => False
    end.
Proof.
  rewrite invoke_unfold; cbn zeta.
  match goal with
  | |- context [request_loop _ ?m ?u ?f ?a ?o ?w0] =>
      destruct (request_loop_budget c m u f a o w0)
        as (k & Hcount & Hle & Hres); [lia|]
  end.
  exists k. rewrite Hcount, fetch_count_request_log.
  rewrite Z.sub_0_r in Hle, Hres.
  split; [reflexivity|]. split; [exact Hle|].
  destruct (request_loop _ _ _ _ _ _ _).1 as [[r|]|e|];
    [lia | lia | lia | done].
Qed.

(** X5.  [download] has no loop either: whatever the retry count, it
    invokes the transport exactly once, and a rejection of the transport
    or the [HttpError] of a status outside the success range is raised at
    once. *)
Theorem download_never_retries c endpoint config w :
  let fr := transport (fetch_count (trace w)) (baseURL c +:+ endpoint)
              (set_signal
                 (applyRequestInterceptors c (download_options c config))
                 (next_id w)) in
  exists w',
    download c endpoint config w = (download_outcome c fr, w') /\
    fetch_count (trace w') = S (fetch_count (trace w)) /\
    (forall e, fr = Rejected e ->
       download c endpoint config w = (Throw e, w')) /\
    (forall r, fr = Resolved r ->
       ok (reduceResponseInterceptors c r) = false ->
       download c endpoint config w
         = (Throw (StatusError
              {| he_status := rs_status (reduceResponseInterceptors c r);
                 he_statusText :=
                   rs_statusText (reduceResponseInterceptors c r);
                 he_url := rs_url (reduceResponseInterceptors c r) |}),
            w')).
Proof.
  destruct (download_spec c endpoint config w) as (evs & Hrun & Hf).
  cbn zeta in Hrun, Hf |- *. eexists; split; [exact Hrun|].
  split; [|split].
  - rewrite fetch_count_extend. unfold fetch_count at 2. rewrite Hf.
    cbn. lia.
  - intros e He. rewrite Hrun, He. reflexivity.
  - intros r Hr Hok. rewrite Hrun, Hr. unfold download_outcome.
    rewrite Hok. reflexivity.
Qed.

(** *** The single-attempt verbs, event by event *)

Lemma upload_run c endpoint file config w :
  let url := baseURL c +:+ endpoint in
  let o := applyRequestInterceptors c (upload_options c file config) in
  let fr := transport (fetch_count (trace w)) url
              (set_signal o (next_id w)) in
  upload c endpoint file config w
    = (attempt_outcome c fr,
       extend w 2
         (single_attempt_events c "POST" url o (next_id w) fr
            (thrown_error (attempt_outcome c fr))
            (ErrorUploadFailed url))).
Proof.
  cbn zeta. unfold upload, logRequest, single_attempt_events, attempt_start.
  unfold bind, try_catch, newAbortController, setTimeout, fresh, emit, ret,
    console.
  destruct (loggingEnabled c);
    cbn -[try_block attempt_outcome fetch_count];
    rewrite try_block_spec;
    cbn -[attempt_outcome fetch_count settled_events];
    rewrite !fetch_count_app; cbn [fetch_count fetches length];
    rewrite !Nat.add_0_r;
    (destruct (attempt_outcome c _) as [v|e|];
     unfold throw, emit, extend; cbn [trace next_id Nat.add thrown_error];
     rewrite <- ?app_assoc; cbn [app]; rewrite ?app_nil_r; reflexivity).
Qed.

Lemma download_run c endpoint config w :
  let url := baseURL c +:+ endpoint in
  let o := applyRequestInterceptors c (download_options c config) in
  let fr := transport (fetch_count (trace w)) url
              (set_signal o (next_id w)) in
  download c endpoint config w
    = (download_outcome c fr,
       extend w 2
         (single_attempt_events c "GET" url o (next_id w) fr
            (thrown_error (download_outcome c fr))
            (ErrorDownloadFailed url))).
Proof.
  cbn zeta.
  unfold download, logRequest, applyResponseInterceptors, fetch,
    single_attempt_events, attempt_start.
  unfold bind, try_catch, newAbortController, setTimeout, clearTimeout,
    fresh, console, emit, ret.
  destruct (loggingEnabled c);
    cbn -[fetch_count];
    rewrite !fetch_count_app; cbn [fetch_count fetches length];
    rewrite !Nat.add_0_r;
    (destruct (transport _ _ _) as [r|e];
     [cbn; destruct (responseLoggingEnabled c); cbn;
      destruct (ok (reduceResponseInterceptors c r)); cbn|cbn];
     unfold extend; cbn [trace next_id Nat.add];
     rewrite <- ?app_assoc; cbn [app]; rewrite ?app_nil_r; reflexivity).
Qed.

(** An outcome that is not an error comes from a response. *)
Lemma attempt_outcome_not_thrown c fr :
  thrown_error (attempt_outcome c fr) = None -> exists r, fr = Resolved r.
Proof. destruct fr as [r|e]; [eauto | discriminate]. Qed.

Lemma download_outcome_not_thrown c fr :
  thrown_error (download_outcome c fr) = None -> exists r, fr = Resolved r.
Proof. destruct fr as [r|e]; [eauto | discriminate]. Qed.

Lemma single_attempt_events_timers c method url o cid fr thrown report :
  (thrown = None -> exists r, fr = Resolved r) ->
  let evs := single_attempt_events c method url o cid fr thrown report in
  timers_in_order [] evs /\
  armed_after [] evs = [] /\
  created evs = [cid; S cid] /\
  fetches evs = [(url, set_signal o cid)].
Proof.
  intros Hres. cbn zeta. unfold single_attempt_events, attempt_start.
  destruct (settled_events_timers c cid fr) as (Hord & Harmed & Hcr).
  rewrite !timers_in_order_app, !armed_after_app, !created_app, !fetches_app.
  rewrite Hcr, fetches_settled_events.
  assert (Hlog : forall line : list Event,
            line = (if loggingEnabled c
                    then [EvConsole (LogRequest method url o)] else []) ->
            timers_in_order [] line /\ armed_after [] line = [] /\
            created line = [] /\ fetches line = [])
    by (intros line ->; destruct (loggingEnabled c); cbn; done).
  destruct (Hlog _ eq_refl) as (Hl1 & Hl2 & Hl3 & Hl4).
  rewrite Hl2, Hl3, Hl4.
  cbn [app armed_after timers_in_order created fetches].
  rewrite Harmed.
  destruct thrown as [e|].
  - cbn. destruct fr; cbn;
      rewrite ?decide_False by (intros H; by apply H); cbn;
      repeat split; try done; eauto;
      destruct (responseLoggingEnabled c); cbn; done.
  - destruct (Hres eq_refl) as [r ->]. cbn.
    repeat split; try done; eauto;
      destruct (responseLoggingEnabled c); cbn; done.
Qed.

(** X6.  The single attempt of [upload] and of [download] follows the same
    timer discipline as an attempt of the retry loop: one fresh controller
    and one fresh timer are created, the transport is called once, with
    the signal of that controller and while exactly that timer is armed,
    and when the call is over, having returned or raised, the timer has
    been cleared. *)
Theorem single_attempts_clear_their_timer c endpoint file config w :
  (exists evs,
     trace (upload c endpoint file config w).2 = trace w ++ evs /\
     created evs = [next_id w; S (next_id w)] /\
     timers_in_order [] evs /\
     armed_after [] evs = [] /\
     exists o, fetches evs = [(baseURL c +:+ endpoint, o)] /\
               ri_signal o = Some (next_id w)) /\
  (exists evs,
     trace (download c endpoint config w).2 = trace w ++ evs /\
     created evs = [next_id w; S (next_id w)] /\
     timers_in_order [] evs /\
     armed_after [] evs = [] /\
     exists o, fetches evs = [(baseURL c +:+ endpoint, o)] /\
               ri_signal o = Some (next_id w)).
Proof.
  split.
  - rewrite upload_run; cbn zeta.
    match goal with
    | |- context [single_attempt_events ?c ?m ?u ?o ?cid ?fr ?th ?rep] =>
        destruct (single_attempt_events_timers c m u o cid fr th rep)
          as (Hord & Harmed & Hcr & Hf);
          [apply attempt_outcome_not_thrown|]
    end.
    eexists; split; [reflexivity|]. eauto 10.
  - rewrite download_run; cbn zeta.
    match goal with
    | |- context [single_attempt_events ?c ?m ?u ?o ?cid ?fr ?th ?rep] =>
        destruct (single_attempt_events_timers c m u o cid fr th rep)
          as (Hord & Harmed & Hcr & Hf);
          [apply download_outcome_not_thrown|]
    end.
    eexists; split; [reflexivity|]. eauto 10.
Qed.

(** *** What the client does not depend on *)

Lemma request_loop_ignores_secret c secret method url :
  forall fuel attempt o w,
    request_loop (setServiceSecret c secret) method url fuel attempt o w
      = request_loop c method url fuel attempt o w.
Proof.
  induction fuel as [|fuel IH]; intros attempt o w; [reflexivity|].
  destruct (Z.ltb_spec attempt (retries c)) as [Hlt|Hge].
  - rewrite (request_loop_step c) by exact Hlt.
    rewrite (request_loop_step (setServiceSecret c secret)) by exact Hlt.
    cbn zeta.
    change (attempt_outcome (setServiceSecret c secret))
      with (attempt_outcome c).
    change (attempt_events (setServiceSecret c secret))
      with (attempt_events c).
    change (retries (setServiceSecret c secret)) with (retries c).
    destruct (attempt_outcome c _); [reflexivity| |reflexivity].
    destruct (attempt <? retries c - 1); [apply IH | reflexivity].
  - rewrite (request_loop_exit c) by exact Hge.
    by rewrite (request_loop_exit (setServiceSecret c secret)).
Qed.

(** X7.  The service secret is stored and never read: setting it changes
    neither the outcome nor the trace of any verb, in any world. *)
Theorem service_secret_is_never_read c secret :
  (forall v endpoint config w,
     invoke (setServiceSecret c secret) v endpoint config w
       = invoke c v endpoint config w) /\
  (forall endpoint file config w,
     upload (setServiceSecret c secret) endpoint file config w
       = upload c endpoint file config w) /\
  (forall endpoint config w,
     download (setServiceSecret c secret) endpoint config w
       = download c endpoint config w).
Proof.
  split; [|split].
  - intros v endpoint config w. rewrite !invoke_unfold. cbn zeta.
    apply request_loop_ignores_secret.
  - reflexivity.
  - reflexivity.
Qed.

Lemma strip_console_app t1 t2 :
  strip_console (t1 ++ t2) = strip_console t1 ++ strip_console t2.
Proof.
  induction t1 as [|e t1 IH]; [reflexivity|].
  destruct e; cbn; rewrite ?IH; reflexivity.
Qed.

Lemma fetches_strip_console tr : fetches (strip_console tr) = fetches tr.
Proof.
  induction tr as [|e tr IH]; [reflexivity|].
  destruct e; cbn; rewrite ?IH; reflexivity.
Qed.

Lemma fetch_count_strip_console w1 w2 :
  strip_console (trace w1) = strip_console (trace w2) ->
  fetch_count (trace w1) = fetch_count (trace w2).
Proof.
  intros Heq. unfold fetch_count.
  by rewrite <- (fetches_strip_console (trace w1)), Heq,
    fetches_strip_console.
Qed.

Lemma strip_console_settled_events c t fr :
  strip_console (settled_events c t fr)
    = match fr with Resolved _ => [EvClearTimeout t] | Rejected _ => [] end.
Proof.
  destruct fr; cbn; [destruct (responseLoggingEnabled c)|]; reflexivity.
Qed.

Lemma same_but_logging_outcome c1 c2 fr :
  same_but_logging c1 c2 ->
  attempt_outcome c1 fr = attempt_outcome c2 fr /\
  download_outcome c1 fr = download_outcome c2 fr.
Proof.
  intros (_ & _ & _ & _ & _ & Hresp).
  unfold attempt_outcome, download_outcome, reduceResponseInterceptors.
  by rewrite Hresp.
Qed.

Lemma same_but_logging_attempt_events c1 c2 method url attempt o cid n :
  same_but_logging c1 c2 ->
  strip_console (attempt_events c1 method url attempt o cid n)
    = strip_console (attempt_events c2 method url attempt o cid n).
Proof.
  intros Hsame.
  destruct (same_but_logging_outcome c1 c2
              (transport n url (set_signal o cid)) Hsame) as [Hout _].
  destruct Hsame as (_ & Htime & _).
  unfold attempt_events, attempt_start, catch_events.
  rewrite !strip_console_app, !strip_console_settled_events, Hout, Htime.
  do 2 f_equal. destruct (attempt_outcome c2 _); reflexivity.
Qed.

Lemma same_but_logging_loop c1 c2 method url :
  same_but_logging c1 c2 ->
  forall fuel attempt o w1 w2,
    next_id w1 = next_id w2 ->
    strip_console (trace w1) = strip_console (trace w2) ->
    let r1 := request_loop c1 method url fuel attempt o w1 in
    let r2 := request_loop c2 method url fuel attempt o w2 in
    r1.1 = r2.1 /\
    next_id r1.2 = next_id r2.2 /\
    strip_console (trace r1.2) = strip_console (trace r2.2).
Proof.
  intros Hsame.
  induction fuel as [|fuel IH]; intros attempt o w1 w2 Hid Htr; cbn zeta;
    [cbn; done|].
  pose proof Hsame as (_ & _ & Hretries & _).
  destruct (Z.ltb_spec attempt (retries c1)) as [Hlt|Hge].
  - rewrite (request_loop_step c1) by exact Hlt.
    rewrite (request_loop_step c2) by (rewrite <- Hretries; exact Hlt).
    cbn zeta.
    rewrite <- Hid, <- (fetch_count_strip_console w1 w2 Htr), <- Hretries.
    set (fr := transport (fetch_count (trace w1)) url
                 (set_signal o (next_id w1))).
    destruct (same_but_logging_outcome c1 c2 fr Hsame) as [Hout _].
    rewrite <- Hout.
    assert (Hnext :
      next_id (extend w1 2 (attempt_events c1 method url attempt o
                              (next_id w1) (fetch_count (trace w1))))
      = next_id (extend w2 2 (attempt_events c2 method url attempt o
                                (next_id w1) (fetch_count (trace w1)))))
      by (cbn; by rewrite Hid).
    assert (Htrace :
      strip_console
        (trace (extend w1 2 (attempt_events c1 method url attempt o
                               (next_id w1) (fetch_count (trace w1)))))
      = strip_console
          (trace (extend w2 2 (attempt_events c2 method url attempt o
                                 (next_id w1) (fetch_count (trace w1))))))
      by (cbn [extend trace]; rewrite !strip_console_app, Htr;
          f_equal; by apply same_but_logging_attempt_events).
    destruct (attempt_outcome c1 fr); [done| |done].
    destruct (attempt <? retries c1 - 1); [|done].
    by apply IH.
  - rewrite (request_loop_exit c1) by exact Hge.
    rewrite (request_loop_exit c2) by (rewrite <- Hretries; exact Hge).
    done.
Qed.

Lemma same_but_logging_options c1 c2 v file config :
  same_but_logging c1 c2 ->
  intercepted_options c1 v config = intercepted_options c2 v config /\
  applyRequestInterceptors c1 (upload_options c1 file config)
    = applyRequestInterceptors c2 (upload_options c2 file config) /\
  applyRequestInterceptors c1 (download_options c1 config)
    = applyRequestInterceptors c2 (download_options c2 config).
Proof.
  intros (_ & _ & _ & Htoken & Hreq & _).
  unfold intercepted_options, applyRequestInterceptors, request_options,
    upload_options, download_options, withAuthorization.
  by rewrite Htoken, Hreq.
Qed.

Lemma same_but_logging_single_attempt c1 c2 method url o cid fr thrown
  report :
  same_but_logging c1 c2 ->
  strip_console
    (single_attempt_events c1 method url o cid fr thrown report)
  = strip_console
      (single_attempt_events c2 method url o cid fr thrown report).
Proof.
  intros (_ & Htime & _).
  unfold single_attempt_events, attempt_start.
  rewrite !strip_console_app, !strip_console_settled_events, Htime.
  f_equal. by destruct (loggingEnabled c1), (loggingEnabled c2).
Qed.

(** X8.  Logging is observation only.  Two clients that differ at most in
    their logging flags (so a client and the same client after
    [enableLogging] or [enableResponseLogging]) settle every call the same
    way, and the traces they leave are the same once the console lines are
    taken out: the same transport calls, controllers and timers. *)
Theorem logging_is_observation_only c1 c2 :
  same_but_logging c1 c2 ->
  (forall v endpoint config w,
     let r1 := invoke c1 v endpoint config w in
     let r2 := invoke c2 v endpoint config w in
     r1.1 = r2.1 /\
     next_id r1.2 = next_id r2.2 /\
     strip_console (trace r1.2) = strip_console (trace r2.2)) /\
  (forall endpoint file config w,
     let r1 := upload c1 endpoint file config w in
     let r2 := upload c2 endpoint file config w in
     r1.1 = r2.1 /\
     next_id r1.2 = next_id r2.2 /\
     strip_console (trace r1.2) = strip_console (trace r2.2)) /\
  (forall endpoint config w,
     let r1 := download c1 endpoint config w in
     let r2 := download c2 endpoint config w in
     r1.1 = r2.1 /\
     next_id r1.2 = next_id r2.2 /\
     strip_console (trace r1.2) = strip_console (trace r2.2)).
Proof.
  intros Hsame. pose proof Hsame as (Hbase & _ & Hretries & _).
  split; [|split].
  - intros v endpoint config w. cbn zeta. rewrite !invoke_unfold. cbn zeta.
    destruct (same_but_logging_options c1 c2 v
                {| file_name := EmptyString; file_bytes := [] |} config Hsame)
      as (Ho & _).
    rewrite <- Ho, <- Hbase, <- Hretries.
    apply (same_but_logging_loop c1 c2); [exact Hsame | reflexivity |].
    cbn [extend trace]. rewrite !strip_console_app. f_equal.
    by destruct (loggingEnabled c1), (loggingEnabled c2).
  - intros endpoint file config w. cbn zeta. rewrite !upload_run. cbn zeta.
    destruct (same_but_logging_options c1 c2 ViaGet file config Hsame)
      as (_ & Ho & _).
    rewrite <- Ho, <- Hbase.
    set (fr := transport _ _ _).
    destruct (same_but_logging_outcome c1 c2 fr Hsame) as [Hout _].
    rewrite <- Hout. cbn [fst snd extend trace next_id].
    split; [reflexivity|]. split; [reflexivity|].
    rewrite !strip_console_app. f_equal.
    by apply same_but_logging_single_attempt.
  - intros endpoint config w. cbn zeta. rewrite !download_run. cbn zeta.
    destruct (same_but_logging_options c1 c2 ViaGet
                {| file_name := EmptyString; file_bytes := [] |} config Hsame)
      as (_ & _ & Ho).
    rewrite <- Ho, <- Hbase.
    set (fr := transport _ _ _).
    destruct (same_but_logging_outcome c1 c2 fr Hsame) as [_ Hout].
    rewrite <- Hout. cbn [fst snd extend trace next_id].
    split; [reflexivity|]. split; [reflexivity|].
    rewrite !strip_console_app. f_equal.
    by apply same_but_logging_single_attempt.
Qed.

(** *** Failing calls *)

Lemma invoke_all_attempts_fail c v endpoint config w (err : nat -> JsError) :
  1 <= retries c ->
  (forall k s, (k < Z.to_nat (retries c))%nat ->
     attempt_outcome c
       (transport (fetch_count (trace w) + k) (baseURL c +:+ endpoint)
          (set_signal (intercepted_options c v config) s))
     = Throw (err k)) ->
  exists w',
    invoke c v endpoint config w
      = (Throw (err (Z.to_nat (retries c) - 1)%nat), w') /\
    fetch_count (trace w')
      = (fetch_count (trace w) + Z.to_nat (retries c))%nat.
Proof.
  intros HR Hfail. rewrite invoke_unfold; cbn zeta.
  set (w0 := extend w 0 _).
  assert (Hn : fetch_count (trace w0) = fetch_count (trace w))
    by apply fetch_count_request_log.
  destruct (request_loop_all_fail c (verb_method v)
              (baseURL c +:+ endpoint) err
              (Z.to_nat (retries c) - 1) (S (Z.to_nat (retries c))) 0 0%nat
              (intercepted_options c v config) w0)
    as (w' & Hrun & Hcount); [lia | lia | |].
  - intros k s Hk. rewrite Hn. apply Hfail. lia.
  - exists w'. split; [exact Hrun|]. rewrite Hcount, Hn. lia.
Qed.

(** X9.  A status outside the success range is not final at once.  When
    the transport answers every attempt of a call with a response whose
    status, as classified, is outside the success range, the call invokes
    the transport [retries] times and then raises the [HttpError] of the
    last response: its status, its status text and its URL. *)
Theorem failing_status_is_raised_after_the_budget c v endpoint config w
  (response : nat -> Response) :
  1 <= retries c ->
  (forall k s, (k < Z.to_nat (retries c))%nat ->
     transport (fetch_count (trace w) + k) (baseURL c +:+ endpoint)
       (set_signal (intercepted_options c v config) s)
     = Resolved (response k)) ->
  (forall k, (k < Z.to_nat (retries c))%nat ->
     ok (reduceResponseInterceptors c (response k)) = false) ->
  let last :=
    reduceResponseInterceptors c
      (response (Z.to_nat (retries c) - 1)%nat) in
  exists w',
    invoke c v endpoint config w
      = (Throw (StatusError {| he_status := rs_status last;
                               he_statusText := rs_statusText last;
                               he_url := rs_url last |}),
         w') /\
    fetch_count (trace w')
      = (fetch_count (trace w) + Z.to_nat (retries c))%nat.
Proof.
  intros HR Hres Hbad. cbn zeta.
  apply (invoke_all_attempts_fail c v endpoint config w
           (fun k =>
              let r := reduceResponseInterceptors c (response k) in
              StatusError {| he_status := rs_status r;
                             he_statusText := rs_statusText r;
                             he_url := rs_url r |}));
    [exact HR|].
  intros k s Hk. rewrite (Hres k s Hk). unfold attempt_outcome.
  rewrite (Hbad k Hk). reflexivity.
Qed.

(** X10.  A success status with a body the codec rejects is an error of the
    attempt like any other: the decoding happens inside the guarded block,
    so the call is retried, and when every attempt ends that way the call
    invokes the transport [retries] times and raises the codec's error for
    the last body. *)
Theorem undecodable_body_is_retried c v endpoint config w
  (response : nat -> Response) (rejection : nat -> JsError) :
  1 <= retries c ->
  (forall k s, (k < Z.to_nat (retries c))%nat ->
     transport (fetch_count (trace w) + k) (baseURL c +:+ endpoint)
       (set_signal (intercepted_options c v config) s)
     = Resolved (response k)) ->
  (forall k, (k < Z.to_nat (retries c))%nat ->
     ok (reduceResponseInterceptors c (response k)) = true /\
     json (rs_body (reduceResponseInterceptors c (response k)))
       = inl (rejection k)) ->
  exists w',
    invoke c v endpoint config w
      = (Throw (rejection (Z.to_nat (retries c) - 1)%nat), w') /\
    fetch_count (trace w')
      = (fetch_count (trace w) + Z.to_nat (retries c))%nat.
Proof.
  intros HR Hres Hbad.
  apply (invoke_all_attempts_fail c v endpoint config w rejection);
    [exact HR|].
  intros k s Hk. rewrite (Hres k s Hk). unfold attempt_outcome.
  destruct (Hbad k Hk) as [Hok Hjson]. rewrite Hok, Hjson. reflexivity.
Qed.

Lemma retry_lines_app t1 t2 :
  retry_lines (t1 ++ t2) = retry_lines t1 ++ retry_lines t2.
Proof.
  induction t1 as [|e t1 IH]; [reflexivity|].
  destruct e as [| | | |[]]; cbn; rewrite ?IH; reflexivity.
Qed.

Lemma retry_lines_failed_attempt c method url attempt o cid n e :
  attempt_outcome c (transport n url (set_signal o cid)) = Throw e ->
  retry_lines (attempt_events c method url attempt o cid n)
    = [if attempt <? retries c - 1
       then WarnRetrying url (attempt + 1)
       else ErrorRequestFailed method url e].
Proof.
  intros Hout. unfold attempt_events, attempt_start, catch_events.
  rewrite Hout, !retry_lines_app.
  assert (Hsettled : forall t fr, retry_lines (settled_events c t fr) = [])
    by (intros t [r|e']; cbn; [destruct (responseLoggingEnabled c)|];
        reflexivity).
  rewrite Hsettled. cbn. by destruct (attempt <? retries c - 1).
Qed.

Lemma request_loop_all_fail_lines c method url (err : nat -> JsError) :
  forall (j fuel : nat) (attempt : Z) (i : nat) o w,
    retries c - attempt = Z.of_nat (S j) ->
    (j < fuel)%nat ->
    (forall k s, (k <= j)%nat ->
       attempt_outcome c
         (transport (fetch_count (trace w) + k) url (set_signal o s))
       = Throw (err (i + k)%nat)) ->
    exists evs,
      trace (request_loop c method url fuel attempt o w).2 = trace w ++ evs /\
      retry_lines evs
        = map (fun k => WarnRetrying url (attempt + Z.of_nat k + 1))
            (seq 0 j)
          ++ [ErrorRequestFailed method url (err (i + j)%nat)].
Proof.
  induction j as [|j IH]; intros fuel attempt i o w Hrem Hfuel Hfail;
    (destruct fuel as [|fuel]; [lia|]);
    rewrite request_loop_step by lia; cbn zeta;
    pose proof (Hfail 0%nat (next_id w) ltac:(lia)) as H0;
    rewrite Nat.add_0_r in H0; rewrite H0.
  - destruct (Z.ltb_spec attempt (retries c - 1)) as [|Hlast]; [lia|].
    eexists; split; [reflexivity|].
    rewrite (retry_lines_failed_attempt _ _ _ _ _ _ _ _ H0).
    apply Z.ltb_ge in Hlast. rewrite Hlast, Nat.add_0_r. reflexivity.
  - destruct (Z.ltb_spec attempt (retries c - 1)) as [Hmore|]; [|lia].
    match goal with
    | |- context [request_loop _ _ _ _ _ ?o' ?w1] =>
        destruct (IH fuel (attempt + 1) (S i) o' w1)
          as (evs & Htr & Hlines); [lia | lia | | ]
    end.
    + intros k s Hk. cbn [set_signal ri_method ri_headers ri_body
        ri_credentials].
      rewrite fetch_count_extend, fetch_count_attempt_events.
      specialize (Hfail (S k) s ltac:(lia)).
      replace (fetch_count (trace w) + 1 + k)%nat
        with (fetch_count (trace w) + S k)%nat by lia.
      replace (S i + k)%nat with (i + S k)%nat by lia.
      exact Hfail.
    + eexists. split.
      * rewrite Htr. cbn [extend trace]. rewrite <- app_assoc. reflexivity.
      * rewrite retry_lines_app, Hlines.
        rewrite (retry_lines_failed_attempt _ _ _ _ _ _ _ _ H0).
        apply Z.ltb_lt in Hmore. rewrite Hmore.
        cbn [app seq map]. rewrite Z.add_0_r.
        replace (S i + j)%nat with (i + S j)%nat by lia.
        f_equal. f_equal.
        rewrite <- seq_shift, map_map. apply map_ext. intros k.
        f_equal. lia.
Qed.

(** X11.  What a failing call writes about its retries.  When every one of
    the R >= 1 attempts raises, the call warns after each attempt but the
    last, numbering the warnings 1 to R-1, and then reports the failure
    once, with the method, the URL and the very error it raises; it writes
    no other warning or failure line. *)
Theorem failing_call_warns_then_reports c v endpoint config w
  (err : nat -> JsError) :
  1 <= retries c ->
  (forall k s, (k < Z.to_nat (retries c))%nat ->
     attempt_outcome c
       (transport (fetch_count (trace w) + k) (baseURL c +:+ endpoint)
          (set_signal (intercepted_options c v config) s))
     = Throw (err k)) ->
  exists evs,
    trace (invoke c v endpoint config w).2 = trace w ++ evs /\
    retry_lines evs
      = map (fun k => WarnRetrying (baseURL c +:+ endpoint) (Z.of_nat k + 1))
          (seq 0 (Z.to_nat (retries c) - 1))
        ++ [ErrorRequestFailed (verb_method v) (baseURL c +:+ endpoint)
              (err (Z.to_nat (retries c) - 1)%nat)].
Proof.
  intros HR Hfail. rewrite invoke_unfold; cbn zeta.
  set (logs := if loggingEnabled c then _ else _).
  assert (Hn : fetch_count (trace (extend w 0 logs)) = fetch_count (trace w))
    by apply fetch_count_request_log.
  destruct (request_loop_all_fail_lines c (verb_method v)
              (baseURL c +:+ endpoint) err
              (Z.to_nat (retries c) - 1) (S (Z.to_nat (retries c))) 0 0%nat
              (intercepted_options c v config) (extend w 0 logs))
    as (evs & Htr & Hlines); [lia | lia | |].
  - intros k s Hk. rewrite Hn. apply Hfail. lia.
  - exists (logs ++ evs). split.
    + rewrite Htr. cbn [extend trace]. by rewrite <- app_assoc.
    + rewrite retry_lines_app, Hlines.
      assert (Hlogs : retry_lines logs = [])
        by (subst logs; by destruct (loggingEnabled c)).
      rewrite Hlogs. reflexivity.
Qed.

(** *** Timers and log lines, listed *)

Lemma timers_set_app t1 t2 :
  timers_set (t1 ++ t2) = timers_set t1 ++ timers_set t2.
Proof.
  induction t1 as [|e t1 IH]; [reflexivity|].
  destruct e; cbn; rewrite ?IH; reflexivity.
Qed.

Lemma request_log_lines_app t1 t2 :
  request_log_lines (t1 ++ t2)
    = request_log_lines t1 ++ request_log_lines t2.
Proof.
  induction t1 as [|e t1 IH]; [reflexivity|].
  destruct e as [| | | |[]]; cbn; rewrite ?IH; reflexivity.
Qed.

Lemma settled_events_quiet c t fr :
  timers_set (settled_events c t fr) = [] /\
  request_log_lines (settled_events c t fr) = [].
Proof.
  destruct fr; cbn; [destruct (responseLoggingEnabled c)|]; done.
Qed.

Lemma attempt_events_lists c method url attempt o cid n :
  timers_set (attempt_events c method url attempt o cid n)
    = [(S cid, cid, timeout c)] /\
  request_log_lines (attempt_events c method url attempt o cid n) = [].
Proof.
  unfold attempt_events, attempt_start, catch_events.
  destruct (settled_events_quiet c (S cid)
              (transport n url (set_signal o cid))) as [Ht Hl].
  rewrite !timers_set_app, !request_log_lines_app, Ht, Hl.
  destruct (attempt_outcome c _); cbn;
    try destruct (attempt <? retries c - 1); done.
Qed.

Lemma loop_trace_lists c method url o cid evs :
  loop_trace c method url o cid evs ->
  timers_set evs
    = map (fun k => (S (cid + 2 * k), cid + 2 * k, timeout c)%nat)
        (seq 0 (fetch_count evs)) /\
  request_log_lines evs = [].
Proof.
  induction 1 as [cid|cid attempt n tail _ [IHt IHl]]; [done|].
  destruct (attempt_events_lists c method url attempt o cid n) as [Ht Hl].
  rewrite fetch_count_app, fetch_count_attempt_events.
  rewrite timers_set_app, request_log_lines_app, Ht, Hl, IHt, IHl.
  split; [|reflexivity].
  cbn [app Nat.add seq map]. rewrite Nat.mul_0_r, Nat.add_0_r. f_equal.
  rewrite <- seq_shift, map_map.
  apply map_ext. intros k.
  replace (cid + 2 * S k)%nat with (2 + cid + 2 * k)%nat by lia.
  reflexivity.
Qed.

(** X12.  The timeout is per attempt.  Every attempt of a call through the
    retry loop arms one timer, for the configured timeout, bound to the
    controller created for that attempt; [upload] and [download] arm one
    such timer for their single attempt.  No verb arms any other timer. *)
Theorem every_attempt_gets_the_configured_timeout c endpoint w :
  (forall v config,
     exists evs,
       trace (invoke c v endpoint config w).2 = trace w ++ evs /\
       timers_set evs
         = map (fun k =>
                  (S (next_id w + 2 * k), next_id w + 2 * k, timeout c)%nat)
             (seq 0 (fetch_count evs))) /\
  (forall file config,
     exists evs,
       trace (upload c endpoint file config w).2 = trace w ++ evs /\
       timers_set evs = [(S (next_id w), next_id w, timeout c)]) /\
  (forall config,
     exists evs,
       trace (download c endpoint config w).2 = trace w ++ evs /\
       timers_set evs = [(S (next_id w), next_id w, timeout c)]).
Proof.
  assert (Hsingle : forall method url o fr thrown report,
            timers_set (single_attempt_events c method url o (next_id w) fr
                          thrown report)
            = [(S (next_id w), next_id w, timeout c)]).
  { intros. unfold single_attempt_events, attempt_start.
    destruct (settled_events_quiet c (S (next_id w)) fr) as [Ht _].
    rewrite !timers_set_app, Ht.
    destruct (loggingEnabled c), thrown; reflexivity. }
  split; [|split].
  - intros v config.
    destruct (invoke_trace c v endpoint config w) as (evs & Htr & Hshape).
    cbn zeta in Htr, Hshape.
    destruct (loop_trace_lists _ _ _ _ _ _ Hshape) as [Ht _].
    eexists; split; [exact Htr|].
    rewrite timers_set_app, fetch_count_app, Ht.
    destruct (loggingEnabled c); reflexivity.
  - intros file config. rewrite upload_run; cbn zeta.
    eexists; split; [reflexivity | apply Hsingle].
  - intros config. rewrite download_run; cbn zeta.
    eexists; split; [reflexivity | apply Hsingle].
Qed.

(** X13.  The request is logged once per call, not once per attempt.  With
    request logging enabled a call through the retry loop writes exactly
    one request line, before its first attempt and also when it makes no
    attempt at all; the line shows the method, the URL and the descriptor
    as the interceptor chain left it.  With request logging disabled it
    writes none. *)
Theorem request_is_logged_once c v endpoint config w :
  let url := baseURL c +:+ endpoint in
  let line := LogRequest (verb_method v) url
                (intercepted_options c v config) in
  exists attempts,
    trace (invoke c v endpoint config w).2
      = trace w ++
        (if loggingEnabled c then [EvConsole line] else []) ++ attempts /\
    request_log_lines attempts = [] /\
    request_log_lines
      ((if loggingEnabled c then [EvConsole line] else []) ++ attempts)
      = (if loggingEnabled c then [line] else []).
Proof.
  cbn zeta.
  destruct (invoke_trace c v endpoint config w) as (evs & Htr & Hshape).
  cbn zeta in Htr, Hshape.
  destruct (loop_trace_lists _ _ _ _ _ _ Hshape) as [_ Hl].
  exists evs. split; [exact Htr|]. split; [exact Hl|].
  rewrite request_log_lines_app, Hl.
  destruct (loggingEnabled c); reflexivity.
Qed.

(** *** The attempts of a call, one by one *)

(** A transport call of [l ++ tail] lies in [tail] when [l] has none. *)
Lemma fetch_split_past l :
  fetches l = [] ->
  forall pre u o post tail,
    pre ++ EvFetch u o :: post = l ++ tail ->
    exists pre', pre = l ++ pre' /\ tail = pre' ++ EvFetch u o :: post.
Proof.
  induction l as [|e l IH]; intros Hquiet pre u o post tail Hsplit.
  - exists pre. split; [reflexivity | by rewrite Hsplit].
  - assert (Hl : fetches l = []) by (destruct e; cbn in Hquiet; done).
    destruct pre as [|p pre]; cbn in Hsplit.
    + injection Hsplit as <- _. discriminate Hquiet.
    + injection Hsplit as -> Hsplit.
      destruct (IH Hl pre u o post tail Hsplit) as (pre' & -> & ->).
      by exists pre'.
Qed.

(** An attempt is its three opening events, then events that create nothing
    and call nothing, among them the clearing of the attempt's timer. *)
Lemma attempt_events_shape c method url attempt o cid n :
  exists rest,
    attempt_events c method url attempt o cid n
      = [EvNewController cid;
         EvSetTimeout (S cid) cid (timeout c);
         EvFetch url (set_signal o cid)] ++ rest /\
    created rest = [] /\
    fetches rest = [] /\
    EvClearTimeout (S cid) ∈ rest.
Proof.
  unfold attempt_events, attempt_start.
  eexists; split; [reflexivity|].
  destruct (settled_events_timers c cid (transport n url (set_signal o cid)))
    as (_ & _ & Hcr).
  rewrite created_app, fetches_app, Hcr, fetches_settled_events.
  destruct (transport n url (set_signal o cid)) as [r|e].
  - split; [|split].
    + destruct (attempt_outcome c (Resolved r)); reflexivity.
    + destruct (attempt_outcome c (Resolved r)); reflexivity.
    + apply elem_of_app. left. cbn. by left.
  - cbn. split; [done|]. split; [done|]. by left.
Qed.

Lemma loop_trace_head c method url o cid evs :
  loop_trace c method url o cid evs ->
  evs = [] \/ exists rest, evs = EvNewController cid :: rest.
Proof.
  destruct 1 as [cid|cid attempt n tail _]; [by left|].
  right. unfold attempt_events, attempt_start. cbn. eauto.
Qed.

(** Every transport call of the loop opens an attempt of its own. *)
Lemma loop_trace_at_fetch c method url o cid0 evs :
  loop_trace c method url o cid0 evs ->
  forall pre u o' post,
    evs = pre ++ EvFetch u o' :: post ->
    exists pre0 mid rest cid,
      cid = (cid0 + 2 * fetch_count pre0)%nat /\
      loop_trace c method url o cid0 pre0 /\
      pre = pre0 ++ [EvNewController cid;
                     EvSetTimeout (S cid) cid (timeout c)] /\
      u = url /\
      o' = set_signal o cid /\
      post = mid ++ rest /\
      created mid = [] /\
      fetches mid = [] /\
      EvClearTimeout (S cid) ∈ mid /\
      loop_trace c method url o (2 + cid) rest.
Proof.
  induction 1 as [cid0|cid0 attempt n tail Htail IH];
    intros pre u o' post Hsplit.
  - by destruct pre.
  - destruct (attempt_events_shape c method url attempt o cid0 n)
      as (more & Hshape & Hcr & Hf & Hclear).
    rewrite Hshape in Hsplit. cbn [app] in Hsplit.
    destruct pre as [|e1 [|e2 [|e3 pre]]]; cbn [app] in Hsplit;
      try discriminate Hsplit.
    + injection Hsplit as <- <- <- <- <-.
      exists [], more, tail, cid0.
      split; [cbn; lia|]. split; [constructor|].
      repeat (split; [done|]). exact Htail.
    + injection Hsplit as <- <- <- Hsplit.
      symmetry in Hsplit.
      destruct (fetch_split_past more Hf pre u o' post tail Hsplit)
        as (pre' & -> & Htl).
      destruct (IH pre' u o' post Htl)
        as (pre0 & mid & rest & cid & Hcid & Hpre0 & -> & Hu & Ho & Hpost
            & Hmid1 & Hmid2 & Hmid3 & Hrest).
      exists (attempt_events c method url attempt o cid0 n ++ pre0),
        mid, rest, cid.
      split.
      { rewrite fetch_count_app, fetch_count_attempt_events. lia. }
      split; [by apply loop_trace_attempt|].
      split.
      { rewrite Hshape. cbn [app]. by rewrite <- !app_assoc. }
      done.
Qed.

(** C9.  What a call through the retry loop adds to the trace, attempt by
    attempt.  Every transport call is the third event of an attempt of its
    own: right before it a controller is created and a timer is armed on
    that controller for the configured timeout, both with identities not
    used before; no timer of an earlier attempt is armed at that point;
    and the call carries the signal of that very controller.  After the
    call, and before the next controller is created or the call is over,
    nothing is created or sent and the timer of the attempt is cleared,
    however the attempt ended.  So the identities created are the next
    ones of the world, two per transport call; when the transport is
    called, exactly the timer of the current attempt is armed; none is
    armed when a controller is created or when the call is over; and a
    timer armed during attempt K is disarmed before attempt K+1 begins and
    is bound to a controller no later attempt uses.  A client with a retry
    count of at least one makes at least one such attempt. *)
Theorem request_timers_are_per_attempt c v endpoint config w :
  exists evs,
    trace (invoke c v endpoint config w).2 = trace w ++ evs /\
    created evs = seq (next_id w) (2 * fetch_count evs) /\
    (forall pre url o post,
       evs = pre ++ EvFetch url o :: post ->
       exists t cid,
         armed_after [] pre = [(t, cid)] /\ ri_signal o = Some cid) /\
    (forall pre cid post,
       evs = pre ++ EvNewController cid :: post ->
       armed_after [] pre = []) /\
    armed_after [] evs = [] /\
    (forall pre url o post,
       evs = pre ++ EvFetch url o :: post ->
       exists before rest_of_attempt later cid,
         pre = before ++ [EvNewController cid;
                          EvSetTimeout (S cid) cid (timeout c)] /\
         cid = (next_id w + 2 * fetch_count before)%nat /\
         (cid ∉ created before) /\
         (S cid ∉ created before) /\
         armed_after [] before = [] /\
         ri_signal o = Some cid /\
         post = rest_of_attempt ++ later /\
         created rest_of_attempt = [] /\
         fetches rest_of_attempt = [] /\
         EvClearTimeout (S cid) ∈ rest_of_attempt /\
         (later = [] \/
          exists rest, later = EvNewController (2 + cid) :: rest)) /\
    (1 <= retries c -> (1 <= fetch_count evs)%nat).
Proof.
  destruct (invoke_trace c v endpoint config w) as (evs & Htr & Hshape).
  cbn zeta in Htr, Hshape.
  destruct (loop_trace_timers _ _ _ _ _ _ Hshape)
    as (Hord & Harmed & Hcreated).
  set (logs := if loggingEnabled c then _ else _) in Htr.
  assert (Hlogs : timers_in_order [] logs /\ armed_after [] logs = [] /\
                  created logs = [] /\ fetches logs = [])
    by (subst logs; destruct (loggingEnabled c); cbn; done).
  destruct Hlogs as (Hlord & Hlarmed & Hlcreated & Hlfetches).
  assert (Hlcount : fetch_count logs = 0%nat)
    by (unfold fetch_count; by rewrite Hlfetches).
  assert (Hall : timers_in_order [] (logs ++ evs))
    by (rewrite timers_in_order_app, Hlarmed; done).
  exists (logs ++ evs). split; [exact Htr|].
  split; [by rewrite created_app, fetch_count_app, Hlcreated, Hlcount|].
  split; [|split; [|split; [|split]]].
  - intros pre url o post Hsplit. rewrite Hsplit in Hall.
    by apply timers_in_order_at_fetch in Hall.
  - intros pre cid post Hsplit. rewrite Hsplit in Hall.
    by apply timers_in_order_at_controller in Hall.
  - by rewrite armed_after_app, Hlarmed.
  - intros pre url o post Hsplit. symmetry in Hsplit.
    destruct (fetch_split_past logs Hlfetches pre url o post evs Hsplit)
      as (pre' & -> & Hevs).
    destruct (loop_trace_at_fetch _ _ _ _ _ _ Hshape pre' url o post Hevs)
      as (pre0 & mid & rest & cid & Hcid & Hpre0 & -> & _ & -> & Hpost
          & Hmid1 & Hmid2 & Hmid3 & Hrest).
    destruct (loop_trace_timers _ _ _ _ _ _ Hpre0)
      as (_ & Harmed0 & Hcreated0).
    exists (logs ++ pre0), mid, rest, cid.
    rewrite created_app, fetch_count_app, armed_after_app, Hlcreated,
      Hlcount, Hlarmed, Hcreated0. cbn [app Nat.add].
    split; [by rewrite <- app_assoc|].
    split; [exact Hcid|].
    split; [rewrite elem_of_seq; lia|].
    split; [rewrite elem_of_seq; lia|].
    split; [exact Harmed0|].
    split; [reflexivity|].
    split; [exact Hpost|].
    split; [exact Hmid1|]. split; [exact Hmid2|]. split; [exact Hmid3|].
    exact (loop_trace_head _ _ _ _ _ _ Hrest).
  - intros HR. subst logs.
    pose proof (invoke_unfold c v endpoint config w) as Hinv.
    cbn zeta in Hinv.
    destruct (request_loop_budget c (verb_method v) (baseURL c +:+ endpoint)
                (S (Z.to_nat (retries c))) 0
                (intercepted_options c v config)
                (extend w 0
                   (if loggingEnabled c
                    then [EvConsole
                            (LogRequest (verb_method v)
                               (baseURL c +:+ endpoint)
                               (intercepted_options c v config))]
                    else [])))
      as (k & Hcount & _ & Hres); [lia|].
    rewrite <- Hinv in Hcount, Hres.
    rewrite Htr, fetch_count_request_log, fetch_count_app in Hcount.
    destruct (invoke c v endpoint config w).1 as [[r|]|e|];
      [lia | lia | lia | done].
Qed.

End Client.

(** ** Examples *)

(** Three attempts, three different failures: the third error is raised. *)
Lemma request_exhausts_retries_example :
  exists w',
    invoke three_failures toy_stringify toy_json sample_client ViaGet
      "/users" empty_config initial_world
      = (Throw aborted, w') /\
    fetch_count (trace w') = 3%nat.
Proof.
  apply (request_exhausts_retries three_failures toy_stringify toy_json
           sample_client ViaGet "/users" empty_config initial_world
           three_failures_errors).
  - cbn. lia.
  - intros k s Hk. cbn in Hk.
    destruct k as [|[|[|k]]]; [reflexivity | reflexivity | reflexivity | lia].
Defined.

(** The second of three attempts succeeds: two transport calls, and the
    decoded body with the status and headers of the response. *)
Lemma request_succeeds_on_attempt_example :
  exists w',
    invoke second_attempt_succeeds toy_stringify toy_json sample_client
      (ViaPost (JsObject [])) "/users" empty_config initial_world
      = (Return (Some
           {| hr_data := JsObject [];
              hr_status := 200;
              hr_headers := {[ "content-type" := "application/json" ]} |}),
         w') /\
    fetch_count (trace w') = 2%nat.
Proof.
  apply (request_succeeds_on_attempt second_attempt_succeeds toy_stringify
           toy_json sample_client (ViaPost (JsObject [])) "/users"
           empty_config initial_world 2
           (sample_response 200 "OK" "{}") (JsObject [])).
  - lia.
  - cbn. lia.
  - intros k s Hk. assert (k = 0%nat) as -> by lia.
    exists network_down. reflexivity.
  - intros s. reflexivity.
  - reflexivity.
  - reflexivity.
Defined.


(** The caller's own [Authorization] header does not survive the token. *)
Lemma authorization_header_is_written_last_example :
  ri_headers (request_options toy_stringify client_with_token "GET" JsNull
                config_with_basic_auth) !! "Authorization"
    = Some "Bearer s3cr3t" /\
  ri_headers (upload_options client_with_token
                {| file_name := "a.txt"; file_bytes := [] |}
                config_with_basic_auth) !! "Authorization"
    = Some "Bearer s3cr3t" /\
  ri_headers (download_options client_with_token config_with_basic_auth)
    !! "Authorization"
    = Some "Bearer s3cr3t".
Proof.
  assert (Hne : "s3cr3t" <> EmptyString) by discriminate.
  destruct (authorization_header_is_written_last always_ok toy_stringify
              toy_json client_with_token "s3cr3t" eq_refl Hne)
    as (Hreq & Hup & Hdown & _).
  split; [apply Hreq | split; [apply Hup | apply Hdown]].
Defined.

(** With the token set, a request interceptor that replaces the headers
    sends the request without the [Authorization] header; and an empty
    token writes no header at all. *)
Lemma authorization_header_not_always_dispatched :
  (let c := addRequestInterceptor client_with_token only_accept_header in
   authToken c = Some "s3cr3t" /\
   map (fun p => ri_headers p.2 !! "Authorization")
     (fetches (trace (invoke always_ok toy_stringify toy_json c ViaGet
                        "/users" empty_config initial_world).2))
   = [None]) /\
  (let c := setAuthToken sample_client EmptyString in
   authToken c = Some EmptyString /\
   map (fun p => ri_headers p.2 !! "Authorization")
     (fetches (trace (invoke always_ok toy_stringify toy_json c ViaGet
                        "/users" empty_config initial_world).2))
   = [None] /\
   map (fun p => ri_headers p.2 !! "Authorization")
     (fetches (trace (upload always_ok toy_json c "/files"
                        {| file_name := "a.txt"; file_bytes := [] |}
                        empty_config initial_world).2))
   = [None] /\
   map (fun p => ri_headers p.2 !! "Authorization")
     (fetches (trace (download always_ok c "/files/1" empty_config
                        initial_world).2))
   = [None]).
Proof. vm_compute. repeat split. Qed.

(** Two request interceptors and two response interceptors, registered in
    this order on a fresh client. *)
Lemma interceptor_chains_compose_example :
  let c := addRequestInterceptor
             (addRequestInterceptor sample_client add_trace_header)
             include_credentials in
  let c' := addResponseInterceptor
              (addResponseInterceptor sample_client force_ok)
              empty_object_body in
  let d := request_options toy_stringify c "GET" JsNull empty_config in
  let r := sample_response 404 "Not Found" "gone" in
  applyRequestInterceptors c d = include_credentials (add_trace_header d) /\
  applyResponseInterceptors c' r initial_world
    = (Return (empty_object_body (force_ok r)), initial_world).
Proof.
  cbn zeta.
  destruct (interceptor_chains_compose always_ok toy_stringify toy_json
              sample_client add_trace_header include_credentials
              force_ok empty_object_body eq_refl eq_refl)
    as (Hreq & _ & Hresp & _).
  split; [apply Hreq | apply Hresp].
Defined.

(** A present but falsy payload is sent as [null], and a request
    interceptor that replaces the body decides what is sent. *)
Lemma request_body_not_always_serialised :
  (map (fun p => ri_body p.2)
     (fetches (trace (invoke always_ok toy_stringify toy_json sample_client
                        (ViaPost (JsNumber 0)) "/users" empty_config
                        initial_world).2))
   = [BodyNull] /\
   BodyNull <> BodyText (toy_stringify (JsNumber 0))) /\
  (let c := addRequestInterceptor sample_client redact_body in
   map (fun p => ri_body p.2)
     (fetches (trace (invoke always_ok toy_stringify toy_json c
                        (ViaPost (JsObject [])) "/users" empty_config
                        initial_world).2))
   = [BodyText "[redacted]"] /\
   BodyText "[redacted]" <> BodyText (toy_stringify (JsObject []))).
Proof. vm_compute. repeat split; discriminate. Qed.

(** A body of valid JSON text comes back from [download] as its bytes. *)
Lemma download_returns_raw_bytes_example :
  exists w',
    download always_ok sample_client "/files/1" empty_config initial_world
    = (Return (String.list_byte_of_string "true"), w').
Proof.
  exact (proj1 (download_returns_raw_bytes always_ok sample_client
                  "/files/1" empty_config initial_world
                  (sample_response 200 "OK" "true") eq_refl eq_refl)).
Defined.

(** A response interceptor that replaces the body decides which bytes
    [download] returns: here they are not the bytes the transport
    delivered, although the status received is 200. *)
Lemma download_returns_intercepted_bytes :
  let c := addResponseInterceptor sample_client empty_object_body in
  let received := sample_response 200 "OK" "true" in
  always_ok 0%nat "https://api.test/files/1"
    (set_signal (applyRequestInterceptors c (download_options c empty_config))
       0)
    = Resolved received /\
  ok received = true /\
  (download always_ok c "/files/1" empty_config initial_world).1
    = Return (String.list_byte_of_string "{}") /\
  (download always_ok c "/files/1" empty_config initial_world).1
    <> Return (rs_body received).
Proof. vm_compute. repeat split. discriminate. Qed.

(** No attempt, no response, no error. *)
Lemma request_without_retries_is_silent_example :
  exists w',
    invoke always_ok toy_stringify toy_json client_without_retries
      (ViaPut (JsObject [])) "/users/1" empty_config initial_world
    = (Return None, w') /\
    fetches (trace w') = fetches (trace initial_world) /\
    created (trace w') = created (trace initial_world).
Proof.
  exact (request_without_retries_is_silent always_ok toy_stringify toy_json
           client_without_retries (ViaPut (JsObject [])) "/users/1"
           empty_config initial_world eq_refl).
Defined.

(** Switching on both kinds of logging changes nothing but console lines. *)
Lemma logging_is_observation_only_example :
  let r1 := invoke three_failures toy_stringify toy_json sample_client
              ViaGet "/users" empty_config initial_world in
  let r2 := invoke three_failures toy_stringify toy_json verbose_client
              ViaGet "/users" empty_config initial_world in
  r1.1 = r2.1 /\
  next_id r1.2 = next_id r2.2 /\
  strip_console (trace r1.2) = strip_console (trace r2.2).
Proof.
  assert (Hsame : same_but_logging sample_client verbose_client)
    by (repeat split).
  exact (proj1 (logging_is_observation_only three_failures toy_stringify
                  toy_json sample_client verbose_client Hsame)
           ViaGet "/users" empty_config initial_world).
Defined.

(** Three attempts against a missing resource, then the 404 is raised. *)
Lemma failing_status_is_raised_after_the_budget_example :
  exists w',
    invoke always_not_found toy_stringify toy_json sample_client ViaGet
      "/users" empty_config initial_world
      = (Throw (StatusError {| he_status := 404;
                               he_statusText := "Not Found";
                               he_url := "https://api.test/users" |}),
         w') /\
    fetch_count (trace w') = 3%nat.
Proof.
  apply (failing_status_is_raised_after_the_budget always_not_found
           toy_stringify toy_json sample_client ViaGet "/users"
           empty_config initial_world
           (fun _ => sample_response 404 "Not Found" "{}")).
  - cbn. lia.
  - intros k s Hk. reflexivity.
  - intros k Hk. reflexivity.
Defined.

(** Three attempts against a server that answers 200 with HTML, then the
    codec's error is raised. *)
Lemma undecodable_body_is_retried_example :
  exists w',
    invoke always_garbled toy_stringify toy_json sample_client ViaGet
      "/users" empty_config initial_world
      = (Throw (NativeError "SyntaxError" "Unexpected token"), w') /\
    fetch_count (trace w') = 3%nat.
Proof.
  apply (undecodable_body_is_retried always_garbled toy_stringify toy_json
           sample_client ViaGet "/users" empty_config initial_world
           (fun _ => sample_response 200 "OK" "<html>")
           (fun _ => NativeError "SyntaxError" "Unexpected token")).
  - cbn. lia.
  - intros k s Hk. reflexivity.
  - intros k Hk. split; reflexivity.
Defined.

(** Two warnings, then the failure line with the error that is raised. *)
Lemma failing_call_warns_then_reports_example :
  exists evs,
    trace (invoke three_failures toy_stringify toy_json sample_client ViaGet
             "/users" empty_config initial_world).2
      = trace initial_world ++ evs /\
    retry_lines evs
      = [WarnRetrying "https://api.test/users" 1;
         WarnRetrying "https://api.test/users" 2;
         ErrorRequestFailed "GET" "https://api.test/users" aborted].
Proof.
  apply (failing_call_warns_then_reports three_failures toy_stringify
           toy_json sample_client ViaGet "/users" empty_config initial_world
           three_failures_errors).
  - cbn. lia.
  - intros k s Hk. cbn in Hk.
    destruct k as [|[|[|k]]]; [reflexivity | reflexivity | reflexivity | lia].
Defined.

(** The controllers, timers and signals of a call that succeeds on its
    second attempt: two attempts, each with identities of its own. *)
Example second_attempt_succeeds_timers :
  let r := invoke second_attempt_succeeds toy_stringify toy_json
             sample_client ViaGet "/users" empty_config initial_world in
  created (trace r.2) = [0; 1; 2; 3]%nat /\
  timers_set (trace r.2) = [(1%nat, 0%nat, 5000); (3%nat, 2%nat, 5000)] /\
  map (fun p => ri_signal p.2) (fetches (trace r.2))
    = [Some 0%nat; Some 2%nat] /\
  armed_after [] (trace r.2) = [].
Proof. vm_compute. repeat split. Qed.
